(** * setup-npm-github: a shallow embedding of the credential-setup command

    The script packages/toolkit-cli/bin/setup-npm-github.js stores a GitHub
    Packages token in the macOS Keychain, appends a loader snippet to the
    shell rc file and merges two directive lines into ~/.npmrc.  The file
    holds three successive versions of the script; the definitions below
    follow the last one (named functions), and the registry-config stage of
    the first two is embedded next to it for comparison.

    JavaScript strings are sequences of UTF-16 code units; a code unit is a
    value of [N].  Objects used as dictionaries are [gmap]s.  The file
    system, the Keychain and the child processes are an explicit world:
    the files are state, the outcome of each external command is read from
    an environment record, and every effect is appended to a trace. *)

From Stdlib Require Import NArith Ascii String List Lia.
From stdpp Require Import gmap list.

Open Scope N_scope.

(** ** JavaScript strings *)

Module JS.

Definition jsstring : Type := list N.

(** An ASCII literal of the source as code units. *)
Definition lit (s : string) : jsstring :=
  List.map N_of_ascii (list_ascii_of_string s).

(** [s.startsWith(p)] *)
Fixpoint startsWith (s p : jsstring) {struct p} : bool :=
  match p, s with
  | [], _ => true
  | _ :: _, [] => false
  | b :: p', a :: s' => (a =? b) && startsWith s' p'
  end.

(** [s.endsWith(p)] *)
Definition endsWith (s p : jsstring) : bool :=
  startsWith (rev s) (rev p).

(** [s.includes(p)] *)
Fixpoint includes (s p : jsstring) : bool :=
  startsWith s p ||
  match s with
  | [] => false
  | _ :: s' => includes s' p
  end.

(** Number of positions of [s] at which [p] occurs. *)
Fixpoint occurrences (p s : jsstring) : nat :=
  ((if startsWith s p then 1 else 0) +
   match s with
   | [] => 0
   | _ :: s' => occurrences p s'
   end)%nat.

(** [s.split(sep)] for a separator of one code unit. *)
Fixpoint split (sep : N) (s : jsstring) : list jsstring :=
  match s with
  | [] => [[]]
  | c :: s' =>
      if c =? sep then [] :: split sep s'
      else match split sep s' with
           | [] => [[c]]
           | h :: r => (c :: h) :: r
           end
  end.

(** [l.join(sep)] *)
Fixpoint join (sep : jsstring) (l : list jsstring) : jsstring :=
  match l with
  | [] => []
  | [x] => x
  | x :: r => x ++ sep ++ join sep r
  end.

(** WhiteSpace and LineTerminator code units, as [String.prototype.trim]
    strips them. *)
Definition is_ws (c : N) : bool :=
  (c =? 9) || (c =? 10) || (c =? 11) || (c =? 12) || (c =? 13) || (c =? 32)
  || (c =? 160) || (c =? 5760) || ((8192 <=? c) && (c <=? 8202))
  || (c =? 8232) || (c =? 8233) || (c =? 8239) || (c =? 8287)
  || (c =? 12288) || (c =? 65279).

Fixpoint trimStart (s : jsstring) : jsstring :=
  match s with
  | [] => []
  | c :: s' => if is_ws c then trimStart s' else s
  end.

Definition trim (s : jsstring) : jsstring :=
  rev (trimStart (rev (trimStart s))).

(** [s === ''] *)
Definition is_empty (s : jsstring) : bool :=
  match s with [] => true | _ => false end.

(** [a === b] on strings *)
Definition streq (a b : jsstring) : bool := bool_decide (a = b).

(** [String.prototype.toLowerCase] on the letters A-Z.  The only callers
    compare the result with 'y' and 'yes', and no code unit outside A-Z
    lower-cases to one of y, e, s. *)
Definition toLowerCase (s : jsstring) : jsstring :=
  List.map (fun c => if (65 <=? c) && (c <=? 90) then c + 32 else c) s.

(** [path.basename(p)] of node's posix flavour: trailing slashes are
    dropped, then everything up to the last slash. *)
Fixpoint after_last_slash (acc s : jsstring) : jsstring :=
  match s with
  | [] => acc
  | c :: s' => if c =? 47 then after_last_slash [] s'
               else after_last_slash (acc ++ [c]) s'
  end.

Fixpoint drop_slashes (s : jsstring) : jsstring :=
  match s with
  | [] => []
  | c :: s' => if c =? 47 then drop_slashes s' else s
  end.

Definition basename (p : jsstring) : jsstring :=
  after_last_slash [] (rev (drop_slashes (rev p))).

End JS.
Import JS.

(** A value stored by the argument parser: a string, or the boolean [true]
    of a bare flag. *)
Inductive value : Type :=
  | VStr (s : jsstring)
  | VTrue.

#[global] Instance value_eq_dec : EqDecision value.
Proof. solve_decision. Defined.

(** Truthiness of a property read ([None] is [undefined]). *)
Definition truthy (v : option value) : bool :=
  match v with
  | Some (VStr s) => negb (is_empty s)
  | Some VTrue => true
  | None => false
  end.

(** [x || d] *)
Definition or_default (v : option value) (d : value) : value :=
  match v with
  | Some x => if truthy v then x else d
  | None => d
  end.

(** Conversion to string inside a template literal. *)
Definition toString (v : value) : jsstring :=
  match v with
  | VStr s => s
  | VTrue => lit "true"
  end.

(** ** Constants (lines 506-509) *)

Definition ORG_DEFAULT : jsstring := lit "yolotechnology".
Definition KEYCHAIN_SERVICE : jsstring := lit "GITHUB_PACKAGES_NPM_TOKEN".
Definition NL : N := 10.
Definition KEYCHAIN_LOADER_SCRIPT : jsstring :=
  lit "# Load GitHub Packages token from macOS Keychain" ++ [NL] ++
  lit "export NPM_TOKEN=" ++ [34] ++
  lit "$(security find-generic-password -a " ++ [34] ++ lit "$USER" ++ [34] ++
  lit " -s " ++ KEYCHAIN_SERVICE ++ lit " -w 2>/dev/null)" ++ [34].

(** ** The argument parser (lines 531-552) *)

(** The object [out].  An assignment [out[k] = v] creates or overwrites an
    own property, except for the key [__proto__], whose setter ignores
    strings and booleans. *)
Definition set_prop (out : gmap jsstring value) (k : jsstring) (v : value)
  : gmap jsstring value :=
  if bool_decide (k = lit "__proto__") then out else <[k := v]> out.

(** [const [k, ...rest] = a.slice(2).split('='); out[k] = rest.join('=')] *)
Definition assign_eq_form (out : gmap jsstring value) (a : jsstring)
  : gmap jsstring value :=
  match split 61 (drop 2 a) with
  | [] => out
  | k :: rest => set_prop out k (VStr (join [61] rest))
  end.

(** The loop over [raw]: one call per iteration, the remaining elements
    as argument ([i++] inside the body skips the value just consumed). *)
Fixpoint parse_loop (raw : list jsstring) (out : gmap jsstring value)
  : gmap jsstring value :=
  match raw with
  | [] => out
  | a :: raw' =>
      if negb (startsWith a (lit "--")) then parse_loop raw' out
      else if includes a [61] then parse_loop raw' (assign_eq_form out a)
      else
        let k := drop 2 a in
        match raw' with
        | next :: raw'' =>
            if negb (is_empty next) && negb (startsWith next (lit "--"))
            then parse_loop raw'' (set_prop out k (VStr next))
            else parse_loop raw' (set_prop out k VTrue)
        | [] => parse_loop raw' (set_prop out k VTrue)
        end
  end.

Definition parseArgs (argv : list jsstring) : gmap jsstring value :=
  parse_loop (drop 2 argv) ∅.

(** The run configuration (lines 555-558). *)
Record Config : Type := {
  org : value;
  dryRun : bool;
  tokenArg : value;
}.

Definition config_of (parsed : gmap jsstring value) : Config :=
  {| org := or_default (parsed !! lit "org") (VStr ORG_DEFAULT);
     dryRun := truthy (parsed !! lit "dry-run");
     tokenArg := or_default (parsed !! lit "token") (VStr []) |}.

(** [parsed.help || parsed.h] *)
Definition help_requested (parsed : gmap jsstring value) : bool :=
  truthy (parsed !! lit "help") || truthy (parsed !! lit "h").

(** [process.argv] for the given command-line words. *)
Definition argv_of (l : list jsstring) : list jsstring :=
  lit "node" :: lit "setup-npm-github.js" :: l.

(** ** The world of the script *)

(** The files the script touches, all directly under [os.homedir()]. *)
Inductive Path : Type := Zshrc | Bashrc | BashProfile | Npmrc.

#[global] Instance Path_eq_dec : EqDecision Path.
Proof. solve_decision. Defined.

(** The file system: the content of each file ([None]: it does not exist)
    and whether the home directory exists. *)
Record World : Type := {
  files : Path -> option jsstring;
  home_exists : bool;
}.

Definition set_file (p : Path) (c : jsstring) (w : World) : World :=
  {| files := fun q => if decide (q = p) then Some c else files w q;
     home_exists := home_exists w |}.

(** Result of [npm whoami]: its standard output, or the captured output of
    a failed run. *)
Inductive NpmResult : Type :=
  | NpmOk (stdout : jsstring)
  | NpmFail (stdout stderr : jsstring).

(** Everything the script reads from outside and does not control. *)
Record Env : Type := {
  platform : jsstring;                (* os.platform() *)
  env_SHELL : option jsstring;        (* process.env.SHELL *)
  env_NPM_TOKEN : option jsstring;    (* process.env.NPM_TOKEN *)
  env_USER : option jsstring;         (* process.env.USER *)
  stdin_isTTY : bool;                 (* stdin is a terminal *)
  keystrokes : list jsstring;         (* 'data' chunks on raw stdin *)
  answer : jsstring;                  (* the line typed at the y/N prompt *)
  keychain_add_ok : bool;             (* security add-generic-password *)
  keychain_find : option jsstring;    (* security find-generic-password *)
  npm_whoami : NpmResult;
  sh : jsstring -> World -> option jsstring * World;
                                      (* /bin/sh -c on any other command *)
  home_writable : bool;               (* fs.accessSync(homeDir, W_OK) *)
  mkdir_ok : bool;
  write_ok : Path -> bool;            (* writeFileSync / appendFileSync *)
  read_ok : Path -> bool;             (* readFileSync *)
}.

(** Console messages, by the place that prints them. *)
Inductive Msg : Type :=
  | MsgMacOnly | MsgUsage | MsgTokenEmpty | MsgInputInterrupted
  | MsgHiddenWarning | MsgHiddenPrompt | MsgNewline
  | MsgDryRunPlaceholder | MsgDryRunKeychain
  | MsgKeychainSaved | MsgKeychainSaveFailed | MsgCancelled
  | MsgUnknownShell (shell : jsstring) | MsgShellFatal
  | MsgDryRunCreate (rc : Path) | MsgMkdirFailed | MsgRcCreated (rc : Path)
  | MsgDryRunAppend (rc : Path) | MsgRcAppended (rc : Path)
  | MsgRcSkip (rc : Path) | MsgRcWriteFailed (rc : Path)
  | MsgDryRunNpmrc | MsgSeparator | MsgText (s : jsstring)
  | MsgNpmrcCreated | MsgNpmrcSkip | MsgNpmrcUpdated | MsgNpmrcFailed
  | MsgNpmrcWritten | MsgNpmrcWriteFailed
  | MsgCheckToken | MsgTokenLoaded (len : nat) | MsgTokenNotLoaded
  | MsgDryRunWhoami | MsgDryRunHint
  | MsgMissingCreds | MsgVerified (user : jsstring) | MsgSourceHint
  | MsgVerifyFailed | MsgNpmOutputBegin | MsgNpmOutputEnd.

(** Observable effects, in the order they happen. *)
Inductive Event : Type :=
  | Print (m : Msg)                       (* console.log, stdout.write *)
  | PrintErr (m : Msg)                    (* console.error, console.warn *)
  | KeychainAdd (token : jsstring)        (* execSync: Keychain upsert *)
  | KeychainFind                          (* execSync: Keychain lookup *)
  | NpmWhoami (token : jsstring)          (* execSync: npm whoami *)
  | ShellExec (cmd : jsstring)            (* execSync: a line the shell expands *)
  | Mkdir
  | WriteFile (p : Path) (content : jsstring)
  | AppendFile (p : Path) (content : jsstring)
  | RawInput                              (* stdin switched to raw mode *)
  | Question.                             (* readline question *)

Inductive JsError : Type := TypeError | IOError.

#[global] Instance Msg_eq_dec : EqDecision Msg.
Proof. solve_decision. Defined.
#[global] Instance Event_eq_dec : EqDecision Event.
Proof. solve_decision. Defined.

(** How a computation ends: a value, [process.exit(code)], an exception, or
    a promise that is never resolved. *)
Inductive Result (A : Type) : Type :=
  | Ret (a : A)
  | Exit (code : Z)
  | Throw (e : JsError)
  | Pending.
Arguments Ret {A} a.
Arguments Exit {A} code.
Arguments Throw {A} e.
Arguments Pending {A}.

Record State : Type := {
  world : World;
  trace : list Event;
}.

Definition M (A : Type) : Type := State -> Result A * State.

Definition ret {A} (a : A) : M A := fun s => (Ret a, s).

Definition bind {A B} (m : M A) (k : A -> M B) : M B :=
  fun s =>
    match m s with
    | (Ret a, s') => k a s'
    | (Exit c, s') => (Exit c, s')
    | (Throw e, s') => (Throw e, s')
    | (Pending, s') => (Pending, s')
    end.

#[global] Instance M_ret : MRet M := @ret.
#[global] Instance M_bind : MBind M := fun A B k m => bind m k.

Definition exit {A} (code : Z) : M A := fun s => (Exit code, s).
Definition throw {A} (e : JsError) : M A := fun s => (Throw e, s).
Definition pending {A} : M A := fun s => (Pending, s).

(** [try { m } catch (e) { h }]: [process.exit] is not an exception. *)
Definition try_catch {A} (m : M A) (h : M A) : M A :=
  fun s =>
    match m s with
    | (Throw _, s') => h s'
    | r => r
    end.

Definition emit (e : Event) : M unit :=
  fun s => (Ret tt, {| world := world s; trace := trace s ++ [e] |}).

Definition get_world : M World := fun s => (Ret (world s), s).

Definition put_world (w : World) : M unit :=
  fun s => (Ret tt, {| world := w; trace := trace s |}).

Definition log (m : Msg) : M unit := emit (Print m).
Definition log_err (m : Msg) : M unit := emit (PrintErr m).

(** [fatal] (lines 512-515) *)
Definition fatal {A} (m : Msg) : M A := log_err m;; exit 1.

(** ** Command lines for the shell (lines 647 and 792) *)

Definition DQUOTE : N := 34.

(** [process.env.USER] inside a template literal. *)
Definition USER (env : Env) : jsstring :=
  default (lit "undefined") (env_USER env).

(** The template literal of line 647. *)
Definition addCommand (user token : jsstring) : jsstring :=
  lit "security add-generic-password -a " ++ [DQUOTE] ++ user ++ [DQUOTE] ++
  lit " -s " ++ KEYCHAIN_SERVICE ++
  lit " -w " ++ [DQUOTE] ++ token ++ [DQUOTE] ++ lit " -U".

(** The template literal of line 792. *)
Definition findCommand (user : jsstring) : jsstring :=
  lit "security find-generic-password -a " ++ [DQUOTE] ++ user ++ [DQUOTE] ++
  lit " -s " ++ KEYCHAIN_SERVICE ++ lit " -w".

(** Between double quotes the shell takes every character as it stands,
    except the dollar sign, the backquote, the backslash and the quote
    itself; a NUL cuts the command line short. *)
Definition sh_special (c : N) : bool :=
  (c =? 0) || (c =? 34) || (c =? 36) || (c =? 92) || (c =? 96).

(** A value that reaches the command unchanged when it is interpolated
    between double quotes. *)
Definition sh_plain (s : jsstring) : bool :=
  forallb (fun c => negb (sh_special c)) s.

(** ** File-system and process primitives *)

Section Primitives.
Variable env : Env.

Definition existsSync (p : Path) : M bool :=
  w ← get_world; ret (bool_decide (is_Some (files w p))).

Definition writeFileSync (p : Path) (c : jsstring) : M unit :=
  emit (WriteFile p c);;
  if write_ok env p
  then w ← get_world; put_world (set_file p c w)
  else throw IOError.

(** Appending creates the file when it is missing. *)
Definition appendFileSync (p : Path) (c : jsstring) : M unit :=
  emit (AppendFile p c);;
  if write_ok env p
  then w ← get_world; put_world (set_file p (default [] (files w p) ++ c) w)
  else throw IOError.

Definition readFileSync (p : Path) : M jsstring :=
  w ← get_world;
  match files w p with
  | Some c => if read_ok env p then ret c else throw IOError
  | None => throw IOError
  end.

Definition accessSync_home : M unit :=
  if home_writable env then ret tt else throw IOError.

Definition mkdirSync_home : M unit :=
  emit Mkdir;;
  if mkdir_ok env
  then w ← get_world;
       put_world {| files := files w; home_exists := true |}
  else throw IOError.

(** [execSync(cmd)] for a command line on which the shell performs an
    expansion: what runs is then up to the shell.  Its standard output, or
    its failure, and the file system it leaves behind are read from the
    environment. *)
Definition sh_exec (cmd : jsstring) : M jsstring :=
  fun s =>
    let (out, w') := sh env cmd (world s) in
    (match out with
     | Some o => Ret o
     | None => Throw IOError
     end,
     {| world := w'; trace := trace s ++ [ShellExec cmd] |}).

(** [execSync] of the command of line 647 ([stdio: 'ignore']).  When the
    account and the token hold nothing special to the shell, the command
    is [security add-generic-password] with the token as its password
    argument, and the Keychain accepts or refuses it.  Otherwise the line
    goes to the shell as it is. *)
Definition execSync_add (user token : jsstring) : M unit :=
  if sh_plain user && sh_plain token then
    emit (KeychainAdd token);;
    if keychain_add_ok env then ret tt else throw IOError
  else
    sh_exec (addCommand user token);; ret tt.

(** [execSync] of the command of line 792: the standard output of the
    lookup. *)
Definition execSync_find (user : jsstring) : M jsstring :=
  if sh_plain user then
    emit KeychainFind;;
    match keychain_find env with
    | Some out => ret out
    | None => throw IOError
    end
  else
    sh_exec (findCommand user).

End Primitives.

(** ** The registry config lines (lines 709-713, 737-770) *)

Definition REGISTRY_SUFFIX : jsstring :=
  lit ":registry=https://npm.pkg.github.com".
Definition AUTH_PREFIX : jsstring :=
  lit "//npm.pkg.github.com/:_authToken=".

Definition registryLine (o : value) : jsstring :=
  lit "@" ++ toString o ++ REGISTRY_SUFFIX.
Definition authTokenLine : jsstring :=
  AUTH_PREFIX ++ lit "${NPM_TOKEN}".

Definition npmrcLines (o : value) : list jsstring :=
  [registryLine o; authTokenLine].

Definition npmrcContent (o : value) : jsstring :=
  join [NL] (npmrcLines o) ++ [NL].

(** [existingContent.split('\n').filter(line => line.trim() !== '')] *)
Definition existingLines (content : jsstring) : list jsstring :=
  List.filter (fun line => negb (is_empty (trim line))) (split NL content).

(** The callback of the second filter: [false] drops the line. *)
Definition keep_line (line : jsstring) : bool :=
  if endsWith line REGISTRY_SUFFIX then false
  else if startsWith line AUTH_PREFIX then false
  else true.

Definition filteredLines (content : jsstring) : list jsstring :=
  List.filter keep_line (existingLines content).

(** [existingLines.includes(x)] *)
Definition array_includes (l : list jsstring) (x : jsstring) : bool :=
  existsb (streq x) l.

Definition hasCorrectRegistry (o : value) (content : jsstring) : bool :=
  array_includes (existingLines content) (registryLine o).
Definition hasCorrectAuthToken (content : jsstring) : bool :=
  array_includes (existingLines content) authTokenLine.

Definition updatedLines (o : value) (content : jsstring) : list jsstring :=
  filteredLines content ++ npmrcLines o.

Definition updatedContent (o : value) (content : jsstring) : jsstring :=
  join [NL] (updatedLines o content) ++ [NL].

(** ** The stages of the final version (lines 565-845) *)

Section Stages.
Variable env : Env.
Variable cfg : Config.

(** [onData] of [readHidden] (lines 577-591), one call per chunk. *)
Fixpoint onData (chunks : list jsstring) (buf : jsstring) : M jsstring :=
  match chunks with
  | [] => pending
  | ch :: rest =>
      if streq ch [13] || streq ch [10] then log MsgNewline;; ret buf
      else if streq ch [3] then log MsgNewline;; fatal MsgInputInterrupted
      else onData rest (buf ++ ch)
  end.

(** [readHidden] (lines 566-595).  [stdin.setRawMode] exists only when
    stdin is a terminal; calling it otherwise is a TypeError, raised after
    the two prompt lines and before any listener is attached. *)
Definition readHidden : M jsstring :=
  log MsgHiddenWarning;; log MsgHiddenPrompt;;
  (if stdin_isTTY env then emit RawInput else throw TypeError);;
  onData (keystrokes env) [].

(** [confirmPrompt] (lines 598-607) *)
Definition confirmPrompt : M bool :=
  emit Question;;
  let normalized := toLowerCase (trim (answer env)) in
  ret (streq normalized (lit "y") || streq normalized (lit "yes")).

(** [detectRcFile] (lines 610-621); [None] is the empty string. *)
Definition detectRcFile : M (option Path) :=
  let shellPath := default [] (env_SHELL env) in
  let currentShell := basename shellPath in
  if streq currentShell (lit "zsh") then ret (Some Zshrc)
  else if streq currentShell (lit "bash") then
    b ← existsSync Bashrc;
    ret (Some (if b : bool then Bashrc else BashProfile))
  else log_err (MsgUnknownShell currentShell);; ret None.

(** [getToken] (lines 624-637) *)
Definition getToken : M jsstring :=
  token ← (if truthy (Some (tokenArg cfg)) then
             match tokenArg cfg with
             | VStr s => ret (trim s)
             | VTrue => throw TypeError
             end
           else if dryRun cfg then
             log MsgDryRunPlaceholder;; ret (lit "DRY_RUN_TOKEN")
           else
             s ← readHidden; ret (trim s));
  if is_empty token then fatal MsgTokenEmpty else ret token.

(** [saveTokenToKeychain] (lines 640-652) *)
Definition saveTokenToKeychain (token : jsstring) : M unit :=
  if dryRun cfg then log MsgDryRunKeychain
  else
    try_catch
      (execSync_add env (USER env) token;;
       log MsgKeychainSaved)
      (fatal MsgKeychainSaveFailed).

(** [hasKeychainLoader] (lines 655-658) *)
Definition hasKeychainLoader (rcContent : jsstring) : bool :=
  includes rcContent KEYCHAIN_SERVICE &&
  includes rcContent (lit "security find-generic-password").

Definition loader : jsstring := [NL] ++ KEYCHAIN_LOADER_SCRIPT ++ [NL].

(** [setupRcFile] (lines 661-704) *)
Definition setupRcFile : M unit :=
  rc ← detectRcFile;
  match rc : option Path with
  | None => fatal MsgShellFatal
  | Some rcFile =>
      try_catch
        (ex ← existsSync rcFile;
         (if negb ex then
            if dryRun cfg then log (MsgDryRunCreate rcFile)
            else
              w ← get_world;
              (if negb (home_exists w)
               then try_catch (mkdirSync_home env) (fatal MsgMkdirFailed)
               else ret tt);;
              writeFileSync env rcFile [];;
              log (MsgRcCreated rcFile)
          else ret tt);;
         ex' ← existsSync rcFile;
         rcContent ← (if ex' : bool then readFileSync env rcFile else ret []);
         if negb (hasKeychainLoader rcContent) then
           if dryRun cfg then
             log (MsgDryRunAppend rcFile);; log (MsgText loader)
           else
             appendFileSync env rcFile loader;;
             log (MsgRcAppended rcFile)
         else log (MsgRcSkip rcFile))
        (fatal (MsgRcWriteFailed rcFile))
  end.

(** [setupNpmrc] (lines 707-777) *)
Definition setupNpmrc : M unit :=
  if dryRun cfg then
    log MsgDryRunNpmrc;; log MsgSeparator;;
    log (MsgText (npmrcContent (org cfg)));; log MsgSeparator
  else
    try_catch
      (accessSync_home env;;
       ex ← existsSync Npmrc;
       if negb ex then
         writeFileSync env Npmrc (npmrcContent (org cfg));;
         log MsgNpmrcCreated
       else
         existingContent ← readFileSync env Npmrc;
         if hasCorrectRegistry (org cfg) existingContent
            && hasCorrectAuthToken existingContent
         then log MsgNpmrcSkip
         else
           writeFileSync env Npmrc (updatedContent (org cfg) existingContent);;
           log MsgNpmrcUpdated)
      (fatal MsgNpmrcFailed).

(** [checkNpmToken] (lines 780-787) *)
Definition checkNpmToken : M unit :=
  log MsgCheckToken;;
  match env_NPM_TOKEN env with
  | Some (c :: t) => log (MsgTokenLoaded (length (c :: t)))
  | _ => log MsgTokenNotLoaded
  end.

(** [getKeychainToken] (lines 790-800) *)
Definition getKeychainToken : M jsstring :=
  try_catch
    (out ← execSync_find env (USER env); ret (trim out))
    (ret (default [] (env_NPM_TOKEN env))).

(** [validateNpm] (lines 803-845) *)
Definition validateNpm : M unit :=
  if dryRun cfg then log MsgDryRunWhoami;; log MsgDryRunHint
  else
    keychainToken ← getKeychainToken;
    if is_empty keychainToken then log_err MsgMissingCreds;; exit 1
    else
      emit (NpmWhoami keychainToken);;
      match npm_whoami env with
      | NpmOk stdout =>
          let result := trim stdout in
          if negb (is_empty result)
          then log (MsgVerified result);; log MsgSourceHint
          else log_err MsgVerifyFailed;; exit 1
      | NpmFail stdout stderr =>
          log_err MsgVerifyFailed;;
          (if negb (is_empty stdout) || negb (is_empty stderr) then
             log_err MsgNpmOutputBegin;;
             log_err (MsgText (stdout ++ stderr));;
             log_err MsgNpmOutputEnd
           else ret tt);;
          exit 1
      end.

(** The main flow (lines 848-866). *)
Definition main : M unit :=
  token ← getToken;
  (if negb (dryRun cfg) then
     ok ← confirmPrompt;
     if negb ok then log MsgCancelled;; exit 0 else ret tt
   else ret tt);;
  saveTokenToKeychain token;;
  setupRcFile;;
  setupNpmrc;;
  checkNpmToken;;
  validateNpm.

End Stages.

(** The whole script: platform guard (lines 518-520), argument parsing and
    the help check (lines 555-563), then the main flow. *)
Definition script (env : Env) (argv : list jsstring) : M unit :=
  if negb (streq (platform env) (lit "darwin")) then fatal MsgMacOnly
  else
    let parsed := parseArgs argv in
    let cfg := config_of parsed in
    if help_requested parsed then log MsgUsage;; exit 0
    else main env cfg.

Definition run {A} (m : M A) (w : World) : Result A * State :=
  m {| world := w; trace := [] |}.

(** ** The registry config stage of the two earlier versions *)

(** The template literal of lines 175 and 430. *)
Definition npmrcContent_v1 (o : value) : jsstring :=
  lit "@" ++ toString o ++ lit ":registry=https://npm.pkg.github.com" ++
  [NL] ++ lit "//npm.pkg.github.com/:_authToken=${NPM_TOKEN}" ++ [NL].

(** Version 1, lines 174-188. *)
Definition writeNpmrc_v1 (env : Env) (cfg : Config) : M unit :=
  if dryRun cfg then
    log MsgDryRunNpmrc;; log MsgSeparator;;
    log (MsgText (npmrcContent_v1 (org cfg)));; log MsgSeparator
  else
    try_catch
      (writeFileSync env Npmrc (npmrcContent_v1 (org cfg));;
       log MsgNpmrcWritten)
      (fatal MsgNpmrcWriteFailed).

(** Version 2, lines 429-443. *)
Definition writeNpmrc_v2 (env : Env) (cfg : Config) : M unit :=
  if dryRun cfg then
    log MsgDryRunNpmrc;; log MsgSeparator;;
    log (MsgText (npmrcContent_v1 (org cfg)));; log MsgSeparator
  else
    try_catch
      (writeFileSync env Npmrc (npmrcContent_v1 (org cfg));;
       log MsgNpmrcWritten)
      (fatal MsgNpmrcWriteFailed).

(** ** Vocabulary of the properties *)

(** The two recognised directive kinds for the registry host. *)
Definition is_registry_directive (line : jsstring) : bool :=
  endsWith line REGISTRY_SUFFIX.
Definition is_auth_directive (line : jsstring) : bool :=
  startsWith line AUTH_PREFIX.
Definition is_stale (line : jsstring) : bool :=
  is_registry_directive line || is_auth_directive line.

(** A line made of white space only. *)
Definition is_blank (line : jsstring) : bool := is_empty (trim line).

(** The lines of a file that are neither blank nor directives for the
    registry host, in file order. *)
Definition unrelated_lines (content : jsstring) : list jsstring :=
  List.filter (fun l => negb (is_blank l) && negb (is_stale l))
    (split NL content).

Definition count_lines (f : jsstring -> bool) (l : list jsstring) : nat :=
  length (List.filter f l).

(** The content of the registry config file after a computation. *)
Definition npmrc_after {A} (r : Result A * State) : option jsstring :=
  files (world (snd r)) Npmrc.

(** Effects that only write to the console. *)
Definition is_console (e : Event) : bool :=
  match e with
  | Print _ | PrintErr _ => true
  | _ => false
  end.

(** Effects that change the Keychain or the file system. *)
Definition is_write (e : Event) : bool :=
  match e with
  | KeychainAdd _ | ShellExec _ | Mkdir | WriteFile _ _ | AppendFile _ _ => true
  | _ => false
  end.

(** The stage [m] run [n] times in succession. *)
Fixpoint repeat_stage (n : nat) (m : M unit) : M unit :=
  match n with
  | O => ret tt
  | S n' => m;; repeat_stage n' m
  end.

Definition is_append (e : Event) : bool :=
  match e with
  | AppendFile _ _ => true
  | _ => false
  end.

(** The rc file [detectRcFile] selects in a given file system. *)
Definition rcTarget (env : Env) (w : World) : option Path :=
  let currentShell := basename (default [] (env_SHELL env)) in
  if streq currentShell (lit "zsh") then Some Zshrc
  else if streq currentShell (lit "bash") then
    Some (if bool_decide (is_Some (files w Bashrc)) then Bashrc
          else BashProfile)
  else None.

(** The key an argument assigns when the parser reaches it as a flag. *)
Definition flag_key (a : jsstring) : option jsstring :=
  if startsWith a (lit "--") then
    if includes a [61] then head (split 61 (drop 2 a))
    else Some (drop 2 a)
  else None.

(** A computation all of whose effects satisfy [allowed] and which leaves
    the file system as it was. *)
Definition only (allowed : Event -> bool) {A} (m : M A) : Prop :=
  forall st r st', m st = (r, st') ->
  world st' = world st /\
  exists evs, trace st' = trace st ++ evs /\
              Forall (fun e => allowed e = true) evs.

(** Nothing but console output. *)
Definition console_only {A} (m : M A) : Prop := only is_console m.

(** No write to the Keychain or the file system. *)
Definition not_write (e : Event) : bool := negb (is_write e).

(** The file already holds both desired lines verbatim: the case in which
    [setupNpmrc] skips the update. *)
Definition already_configured (o : value) (w : World) : bool :=
  match files w Npmrc with
  | Some c => hasCorrectRegistry o c && hasCorrectAuthToken c
  | None => false
  end.

(** ** Sample inputs *)

(** A macOS machine with zsh, a user who types the token [ghp] and
    answers [y], and external commands that succeed. *)
Definition env_mac : Env :=
  {| platform := lit "darwin";
     env_SHELL := Some (lit "/bin/zsh");
     env_NPM_TOKEN := None;
     env_USER := Some (lit "dev");
     stdin_isTTY := true;
     keystrokes := [lit "g"; lit "h"; lit "p"; [13]];
     answer := lit "y";
     keychain_add_ok := true;
     keychain_find := Some (lit "ghp" ++ [NL]);
     npm_whoami := NpmOk (lit "octocat" ++ [NL]);
     sh := fun _ w => (None, w);
     home_writable := true;
     mkdir_ok := true;
     write_ok := fun _ => true;
     read_ok := fun _ => true |}.

(** The same machine reporting another platform. *)
Definition env_linux : Env :=
  {| platform := lit "linux";
     env_SHELL := env_SHELL env_mac;
     env_NPM_TOKEN := env_NPM_TOKEN env_mac;
     env_USER := env_USER env_mac;
     stdin_isTTY := stdin_isTTY env_mac;
     keystrokes := keystrokes env_mac;
     answer := answer env_mac;
     keychain_add_ok := keychain_add_ok env_mac;
     keychain_find := keychain_find env_mac;
     npm_whoami := npm_whoami env_mac;
     sh := sh env_mac;
     home_writable := home_writable env_mac;
     mkdir_ok := mkdir_ok env_mac;
     write_ok := write_ok env_mac;
     read_ok := read_ok env_mac |}.

(** A home directory without any of the files. *)
Definition world_empty : World :=
  {| files := fun _ => None; home_exists := true |}.

(** A home directory holding one file. *)
Definition world_with (p : Path) (c : jsstring) : World :=
  set_file p c world_empty.

Definition cfg_acme : Config :=
  {| org := VStr (lit "acme"); dryRun := false; tokenArg := VStr [] |}.

(** Sample registry config files. *)

Definition line_registry_acme : jsstring :=
  lit "@acme:registry=https://npm.pkg.github.com".
Definition line_registry_old : jsstring :=
  lit "@old:registry=https://npm.pkg.github.com".
Definition line_auth_env : jsstring :=
  lit "//npm.pkg.github.com/:_authToken=${NPM_TOKEN}".
Definition line_auth_literal : jsstring :=
  lit "//npm.pkg.github.com/:_authToken=ghp_literal".

(** Both desired lines first, then a directive of another organization
    and an unrelated setting. *)
Definition npmrc_configured_first : jsstring :=
  line_registry_acme ++ [NL] ++ line_auth_env ++ [NL] ++
  line_registry_old ++ [NL] ++ lit "color=true" ++ [NL].

(** An unrelated setting, a line of three spaces, a stale directive. *)
Definition npmrc_with_blank : jsstring :=
  lit "color=true" ++ [NL] ++ lit "   " ++ [NL] ++ line_registry_old ++ [NL].

(** Both desired lines and, between them, a literal token. *)
Definition npmrc_literal_secret : jsstring :=
  line_registry_acme ++ [NL] ++ line_auth_literal ++ [NL] ++
  line_auth_env ++ [NL].

(** One unrelated setting. *)
Definition npmrc_unrelated : jsstring := lit "color=true" ++ [NL].

(** An rc file that mentions both markers without holding the loader. *)
Definition rc_mentions_markers : jsstring :=
  lit "# GITHUB_PACKAGES_NPM_TOKEN is read by security find-generic-password" ++ [NL].

(** ** The shell profile stage of the two earlier versions *)

(** The loader of lines 155 and 410, a template literal with escaped
    quotes. *)
Definition loader_v2 : jsstring :=
  [NL] ++ lit "# Load GitHub Packages token from macOS Keychain" ++ [NL] ++
  lit "export NPM_TOKEN=" ++ [34] ++
  lit "$(security find-generic-password -a " ++ [34] ++ lit "$USER" ++ [34] ++
  lit " -s GITHUB_PACKAGES_NPM_TOKEN -w 2>/dev/null)" ++ [34] ++ [NL].

(** Version 2, lines 393-426 (version 1, lines 126-172, is the same code
    with the shell detection inline).  The directory is created without
    looking whether it exists, and presence of the loader is decided on the
    service name alone. *)
Definition setupRcFile_v2 (env : Env) (cfg : Config) : M unit :=
  rc ← detectRcFile env;
  match rc : option Path with
  | None => fatal MsgShellFatal
  | Some rcFile =>
      try_catch
        (ex ← existsSync rcFile;
         (if negb ex then
            if dryRun cfg then log (MsgDryRunCreate rcFile)
            else
              mkdirSync_home env;;
              writeFileSync env rcFile [];;
              log (MsgRcCreated rcFile)
          else ret tt);;
         ex' ← existsSync rcFile;
         rcContent ← (if ex' : bool then readFileSync env rcFile else ret []);
         if negb (includes rcContent (lit "GITHUB_PACKAGES_NPM_TOKEN")) then
           if dryRun cfg then
             log (MsgDryRunAppend rcFile);; log (MsgText loader_v2)
           else
             appendFileSync env rcFile loader_v2;;
             log (MsgRcAppended rcFile)
         else log (MsgRcSkip rcFile))
        (fatal (MsgRcWriteFailed rcFile))
  end.

(** ** Further vocabulary *)

(** The answer test of [confirmPrompt] (lines 603-604). *)
Definition said_yes (a : jsstring) : bool :=
  let normalized := toLowerCase (trim a) in
  streq normalized (lit "y") || streq normalized (lit "yes").

(** A keystroke chunk that neither ends the hidden input nor aborts it. *)
Definition plain_chunk (ch : jsstring) : Prop :=
  ch <> [13] /\ ch <> [10] /\ ch <> [3].

(** A computation that only adds to the trace. *)
Definition extends {A} (m : M A) : Prop :=
  forall st r st', m st = (r, st') -> exists evs, trace st' = trace st ++ evs.

(** [w'] holds every file of [w], each with its old content as a prefix. *)
Definition append_only (w w' : World) : Prop :=
  forall p c, files w p = Some c ->
  exists suffix, files w' p = Some (c ++ suffix).

(** The file system of the sample machine is unchanged, the user declines. *)
Definition env_declines : Env :=
  {| platform := platform env_mac;
     env_SHELL := env_SHELL env_mac;
     env_NPM_TOKEN := env_NPM_TOKEN env_mac;
     env_USER := env_USER env_mac;
     stdin_isTTY := stdin_isTTY env_mac;
     keystrokes := keystrokes env_mac;
     answer := [];
     keychain_add_ok := keychain_add_ok env_mac;
     keychain_find := keychain_find env_mac;
     npm_whoami := npm_whoami env_mac;
     sh := sh env_mac;
     home_writable := home_writable env_mac;
     mkdir_ok := mkdir_ok env_mac;
     write_ok := write_ok env_mac;
     read_ok := read_ok env_mac |}.

(** The sample machine with a Keychain that refuses the write. *)
Definition env_keychain_locked : Env :=
  {| platform := platform env_mac;
     env_SHELL := env_SHELL env_mac;
     env_NPM_TOKEN := env_NPM_TOKEN env_mac;
     env_USER := env_USER env_mac;
     stdin_isTTY := stdin_isTTY env_mac;
     keystrokes := keystrokes env_mac;
     answer := answer env_mac;
     keychain_add_ok := false;
     keychain_find := keychain_find env_mac;
     npm_whoami := npm_whoami env_mac;
     sh := sh env_mac;
     home_writable := home_writable env_mac;
     mkdir_ok := mkdir_ok env_mac;
     write_ok := write_ok env_mac;
     read_ok := read_ok env_mac |}.

(** The sample machine with a shell the script does not know. *)
Definition env_fish : Env :=
  {| platform := platform env_mac;
     env_SHELL := Some (lit "/usr/local/bin/fish");
     env_NPM_TOKEN := env_NPM_TOKEN env_mac;
     env_USER := env_USER env_mac;
     stdin_isTTY := stdin_isTTY env_mac;
     keystrokes := keystrokes env_mac;
     answer := answer env_mac;
     keychain_add_ok := keychain_add_ok env_mac;
     keychain_find := keychain_find env_mac;
     npm_whoami := npm_whoami env_mac;
     sh := sh env_mac;
     home_writable := home_writable env_mac;
     mkdir_ok := mkdir_ok env_mac;
     write_ok := write_ok env_mac;
     read_ok := read_ok env_mac |}.

(** The sample machine with a user who types [g], then Ctrl-C. *)
Definition env_interrupts : Env :=
  {| platform := platform env_mac;
     env_SHELL := env_SHELL env_mac;
     env_NPM_TOKEN := env_NPM_TOKEN env_mac;
     env_USER := env_USER env_mac;
     stdin_isTTY := stdin_isTTY env_mac;
     keystrokes := [lit "g"; [3]; lit "x"];
     answer := answer env_mac;
     keychain_add_ok := keychain_add_ok env_mac;
     keychain_find := keychain_find env_mac;
     npm_whoami := npm_whoami env_mac;
     sh := sh env_mac;
     home_writable := home_writable env_mac;
     mkdir_ok := mkdir_ok env_mac;
     write_ok := write_ok env_mac;
     read_ok := read_ok env_mac |}.

(** A dry-run configuration without a token. *)
Definition cfg_dry : Config :=
  {| org := VStr (lit "acme"); dryRun := true; tokenArg := VStr [] |}.

(** The sample machine with bash as the shell. *)
Definition env_bash : Env :=
  {| platform := platform env_mac;
     env_SHELL := Some (lit "/bin/bash");
     env_NPM_TOKEN := env_NPM_TOKEN env_mac;
     env_USER := env_USER env_mac;
     stdin_isTTY := stdin_isTTY env_mac;
     keystrokes := keystrokes env_mac;
     answer := answer env_mac;
     keychain_add_ok := keychain_add_ok env_mac;
     keychain_find := keychain_find env_mac;
     npm_whoami := npm_whoami env_mac;
     sh := sh env_mac;
     home_writable := home_writable env_mac;
     mkdir_ok := mkdir_ok env_mac;
     write_ok := write_ok env_mac;
     read_ok := read_ok env_mac |}.

(** A configuration with an explicit token. *)
Definition cfg_token : Config :=
  {| org := VStr (lit "acme"); dryRun := false;
     tokenArg := VStr (lit " abc123 ") |}.

(** The Keychain lookup succeeds and prints more than white space. *)
Definition vault_yields (env : Env) : Prop :=
  exists out, keychain_find env = Some out /\ trim out <> [].

(** NPM_TOKEN is set in the environment, to a non-empty value. *)
Definition environment_yields (env : Env) : Prop :=
  exists t, env_NPM_TOKEN env = Some t /\ t <> [].

(** The arguments that assign [key] when the parser reaches them, in
    order. *)
Definition assigners (key : jsstring) (words : list jsstring)
  : list jsstring :=
  List.filter (fun a => bool_decide (flag_key a = Some key)) words.

(** The sample machine with a Keychain entry whose password is empty (the
    lookup prints a line break) and a token in NPM_TOKEN. *)
Definition env_blank_entry : Env :=
  {| platform := platform env_mac;
     env_SHELL := env_SHELL env_mac;
     env_NPM_TOKEN := Some (lit "ghp_env");
     env_USER := env_USER env_mac;
     stdin_isTTY := stdin_isTTY env_mac;
     keystrokes := keystrokes env_mac;
     answer := answer env_mac;
     keychain_add_ok := keychain_add_ok env_mac;
     keychain_find := Some [NL];
     npm_whoami := npm_whoami env_mac;
     sh := sh env_mac;
     home_writable := home_writable env_mac;
     mkdir_ok := mkdir_ok env_mac;
     write_ok := write_ok env_mac;
     read_ok := read_ok env_mac |}.

(** ** Facts about the string primitives *)

Section StringFacts.
Implicit Types (s p t : jsstring) (sep c : N).

Lemma startsWith_true s p : startsWith s p = true <-> exists t, s = p ++ t.
Proof.
  revert s; induction p as [|b p IH]; intros s; simpl.
  - split; [intros _; by exists s | done].
  - destruct s as [|a s].
    + split; [discriminate | intros [t Ht]; discriminate].
    + rewrite andb_true_iff, N.eqb_eq, IH. split.
      * intros [-> [t ->]]. eauto.
      * intros [t Ht]. injection Ht as -> ->. eauto.
Qed.

Lemma startsWith_app p t : startsWith (p ++ t) p = true.
Proof. apply startsWith_true. eauto. Qed.

Lemma endsWith_true s p : endsWith s p = true <-> exists t, s = t ++ p.
Proof.
  unfold endsWith. rewrite startsWith_true. split.
  - intros [t Ht]. exists (rev t).
    rewrite <- (rev_involutive s), Ht, rev_app_distr, rev_involutive. done.
  - intros [t ->]. exists (rev t). by rewrite rev_app_distr.
Qed.

Lemma includes_true s p :
  includes s p = true <-> exists a b, s = a ++ p ++ b.
Proof.
  induction s as [|x s IH]; simpl.
  - rewrite orb_false_r, startsWith_true. split.
    + intros [t Ht]. exists [], t. done.
    + intros [a [b Hab]]. destruct a; simpl in *.
      * eauto.
      * discriminate.
  - rewrite orb_true_iff, startsWith_true, IH. split.
    + intros [[t Ht] | [a [b ->]]].
      * exists [], t. done.
      * exists (x :: a), b. done.
    + intros [a [b Hab]]. destruct a as [|y a]; simpl in *.
      * left. eauto.
      * right. injection Hab as -> ->. eauto.
Qed.

Lemma includes_char s c : includes s [c] = true <-> c ∈ s.
Proof.
  rewrite includes_true. split.
  - intros [a [b ->]]. set_solver.
  - intros [a [b ->]]%list_elem_of_split. eauto.
Qed.

Lemma split_not_nil sep s : split sep s <> [].
Proof.
  destruct s as [|c s]; simpl; [done|].
  destruct (c =? sep); [done|]. by destruct (split sep s).
Qed.

Lemma split_no_sep sep s : sep ∉ s -> split sep s = [s].
Proof.
  induction s as [|c s IH]; simpl; [done|]. intros Hs.
  destruct (N.eqb_spec c sep) as [->|Hne]; [set_solver|].
  rewrite IH; [done | set_solver].
Qed.

Lemma split_app_sep sep s t :
  sep ∉ s -> split sep (s ++ sep :: t) = s :: split sep t.
Proof.
  induction s as [|c s IH]; simpl; intros Hs.
  - by rewrite N.eqb_refl.
  - destruct (N.eqb_spec c sep) as [->|Hne]; [set_solver|].
    rewrite IH; [done | set_solver].
Qed.

Lemma split_snoc_sep sep s : split sep (s ++ [sep]) = split sep s ++ [[]].
Proof.
  induction s as [|c s IH]; simpl.
  - by rewrite N.eqb_refl.
  - destruct (c =? sep); rewrite IH; [done|].
    pose proof (split_not_nil sep s). by destruct (split sep s).
Qed.

Lemma split_pieces sep s : Forall (fun l => sep ∉ l) (split sep s).
Proof.
  induction s as [|c s IH]; simpl.
  - repeat constructor. apply not_elem_of_nil.
  - destruct (N.eqb_spec c sep) as [->|Hne].
    + constructor; [apply not_elem_of_nil | done].
    + destruct (split sep s) as [|h r].
      * repeat constructor. apply not_elem_of_cons. split; [done|].
        apply not_elem_of_nil.
      * inversion IH; subst. constructor; [|done].
        apply not_elem_of_cons. by split.
Qed.

Lemma join_split sep s : join [sep] (split sep s) = s.
Proof.
  induction s as [|c s IH]; simpl; [done|].
  destruct (N.eqb_spec c sep) as [->|Hne].
  - pose proof (split_not_nil sep s).
    destruct (split sep s) as [|h r]; [done|]. simpl in *. by rewrite IH.
  - destruct (split sep s) as [|h r] eqn:E.
    + by destruct (split_not_nil sep s).
    + simpl in *. destruct r; simpl in *; by rewrite <- IH.
Qed.

Lemma split_join sep (l : list jsstring) :
  l <> [] -> Forall (fun x => sep ∉ x) l -> split sep (join [sep] l) = l.
Proof.
  induction l as [|x l IH]; [done|]. intros _ Hall.
  inversion Hall as [|? ? Hx Hl]; subst.
  destruct l as [|y l].
  - simpl. by apply split_no_sep.
  - change (join [sep] (x :: y :: l)) with (x ++ sep :: join [sep] (y :: l)).
    rewrite split_app_sep by done. by rewrite IH.
Qed.

Lemma trimStart_blank s : Forall (fun c => is_ws c = true) s -> trimStart s = [].
Proof.
  induction 1 as [|c s Hc _ IH]; simpl; [done|]. by rewrite Hc.
Qed.

Lemma trimStart_nil_blank s : trimStart s = [] -> Forall (fun c => is_ws c = true) s.
Proof.
  induction s as [|c s IH]; simpl; [constructor|].
  destruct (is_ws c) eqn:E; [|discriminate]. intros H. constructor; auto.
Qed.

Lemma trimStart_head s c t : trimStart s = c :: t -> is_ws c = false.
Proof.
  induction s as [|a s IH]; simpl; [discriminate|].
  destruct (is_ws a) eqn:Ea; [auto|]. by intros [= -> ->].
Qed.

(** [line.trim() !== ''] holds exactly for the lines with a code unit that
    is not white space. *)
Lemma trim_empty_iff s :
  is_empty (trim s) = true <-> Forall (fun c => is_ws c = true) s.
Proof.
  unfold trim. split.
  - intros H. apply trimStart_nil_blank.
    destruct (trimStart s) as [|c t] eqn:E; [done|].
    exfalso. apply trimStart_head in E. simpl in H.
    destruct (trimStart (rev t ++ [c])) as [|d u] eqn:E2.
    + apply trimStart_nil_blank in E2.
      apply Forall_app in E2 as [_ E2]. inversion E2; congruence.
    + simpl in H. by destruct (rev u).
  - intros H. rewrite (trimStart_blank s H). done.
Qed.

End StringFacts.

(** ** The argument parser *)

Section ParserFacts.
Implicit Types (out : gmap jsstring value) (k key a : jsstring).

Lemma lookup_set_prop_ne out k key v :
  k <> key -> set_prop out k v !! key = out !! key.
Proof.
  intros Hne. unfold set_prop. case_bool_decide; [done|].
  by rewrite lookup_insert_ne.
Qed.

Lemma lookup_set_prop_eq out k v :
  k <> lit "__proto__" -> set_prop out k v !! k = Some v.
Proof.
  intros Hne. unfold set_prop. rewrite bool_decide_eq_false_2 by done.
  by rewrite lookup_insert_eq.
Qed.

(** The key of an [--k=v] argument never contains the equals sign. *)
Lemma assign_eq_form_other out a key :
  61 ∈ key -> assign_eq_form out a !! key = out !! key.
Proof.
  intros Hin. unfold assign_eq_form.
  pose proof (split_pieces 61 (drop 2 a)) as Hp.
  destruct (split 61 (drop 2 a)) as [|k rest]; [done|].
  inversion Hp; subst. apply lookup_set_prop_ne. by intros ->.
Qed.

Lemma includes_dashes key : includes (lit "--" ++ key) [61] = includes key [61].
Proof. reflexivity. Qed.

Lemma includes_eq_form key v : includes (lit "--" ++ key ++ [61] ++ v) [61] = true.
Proof. apply includes_char. set_solver. Qed.

(** One iteration of the loop, case by case. *)
Lemma parse_loop_skip a raw out :
  startsWith a (lit "--") = false -> parse_loop (a :: raw) out = parse_loop raw out.
Proof. intros H. cbn [parse_loop]. by rewrite H. Qed.

Lemma parse_loop_eq_form a raw out :
  startsWith a (lit "--") = true -> includes a [61] = true ->
  parse_loop (a :: raw) out = parse_loop raw (assign_eq_form out a).
Proof. intros H1 H2. cbn [parse_loop]. by rewrite H1, H2. Qed.

Lemma parse_loop_value a next raw out :
  startsWith a (lit "--") = true -> includes a [61] = false ->
  next <> [] -> startsWith next (lit "--") = false ->
  parse_loop (a :: next :: raw) out
  = parse_loop raw (set_prop out (drop 2 a) (VStr next)).
Proof.
  intros H1 H2 H3 H4. cbn [parse_loop]. rewrite H1, H2, H4.
  by destruct next.
Qed.

Lemma parse_loop_bare a next raw out :
  startsWith a (lit "--") = true -> includes a [61] = false ->
  next = [] \/ startsWith next (lit "--") = true ->
  parse_loop (a :: next :: raw) out
  = parse_loop (next :: raw) (set_prop out (drop 2 a) VTrue).
Proof.
  intros H1 H2 H3. cbn [parse_loop]. rewrite H1, H2.
  destruct H3 as [-> | ->]; [done|]. simpl negb. by rewrite andb_false_r.
Qed.

Lemma parse_loop_last a out :
  startsWith a (lit "--") = true -> includes a [61] = false ->
  parse_loop [a] out = set_prop out (drop 2 a) VTrue.
Proof. intros H1 H2. cbn [parse_loop]. by rewrite H1, H2. Qed.

End ParserFacts.

(** C6, as stated, fails: a value that looks like a flag, and an empty
    value, are kept by the [--key=value] form but not taken by the
    [--key value] form, which stores [true]. *)
Lemma forms_disagree :
  parseArgs (argv_of [lit "--org=--x"]) !! lit "org" = Some (VStr (lit "--x"))
  /\ parseArgs (argv_of [lit "--org"; lit "--x"]) !! lit "org" = Some VTrue
  /\ parseArgs (argv_of [lit "--org="]) !! lit "org" = Some (VStr [])
  /\ parseArgs (argv_of [lit "--org"; []]) !! lit "org" = Some VTrue.
Proof. repeat split; vm_compute; reflexivity. Qed.

(** C6, amended: for every key and every non-empty value that does not
    start with two dashes, the arguments [--key=value] and [--key value]
    give the same value for that key. *)
Theorem forms_agree (key v : jsstring) :
  v <> [] -> startsWith v (lit "--") = false ->
  parseArgs (argv_of [lit "--" ++ key ++ [61] ++ v]) !! key
  = parseArgs (argv_of [lit "--" ++ key; v]) !! key.
Proof.
  intros Hv Hdash. unfold parseArgs, argv_of. cbn [drop].
  rewrite parse_loop_eq_form
    by (apply startsWith_app || apply includes_eq_form).
  destruct (includes key [61]) eqn:Hk.
  - rewrite (parse_loop_eq_form (lit "--" ++ key))
      by (apply startsWith_app || by rewrite includes_dashes).
    rewrite parse_loop_skip by done. cbn [parse_loop].
    apply includes_char in Hk. by rewrite !assign_eq_form_other.
  - assert (Hnk : 61 ∉ key).
    { intros Hin%includes_char. congruence. }
    rewrite parse_loop_value;
      [|apply startsWith_app | by rewrite includes_dashes | done | done].
    cbn [parse_loop]. unfold assign_eq_form.
    change (drop 2 (lit "--" ++ key ++ [61] ++ v)) with (key ++ 61 :: v).
    rewrite split_app_sep by done. rewrite join_split. reflexivity.
Qed.

Lemma forms_agree_witness :
  parseArgs (argv_of [lit "--org=acme"]) !! lit "org"
  = parseArgs (argv_of [lit "--org"; lit "acme"]) !! lit "org".
Proof.
  apply (forms_agree (lit "org") (lit "acme")); [discriminate | reflexivity].
Defined.

Section ParserLoop.
Implicit Types (out : gmap jsstring value) (raw pre : list jsstring).

(** Arguments that assign other keys leave a key as it was. *)
Lemma parse_loop_preserve_le key n :
  forall raw out, (length raw <= n)%nat ->
  (forall a, a ∈ raw -> flag_key a <> Some key) ->
  parse_loop raw out !! key = out !! key.
Proof.
  induction n as [|n IH]; intros raw out Hlen Hraw.
  - destruct raw; [done | simpl in Hlen; lia].
  - destruct raw as [|a raw']; [done|].
    simpl in Hlen.
    assert (Ha := Hraw a (list_elem_of_here _ _)).
    assert (Hraw' : forall b, b ∈ raw' -> flag_key b <> Some key).
    { intros b Hb. apply Hraw. by apply list_elem_of_further. }
    unfold flag_key in Ha. cbn [parse_loop].
    destruct (startsWith a (lit "--")) eqn:E1; cbn [negb].
    + destruct (includes a [61]) eqn:E2.
      * rewrite IH by (done || lia). unfold assign_eq_form.
        destruct (split 61 (drop 2 a)) as [|k rest]; [done|].
        apply lookup_set_prop_ne. intros ->. by apply Ha.
      * assert (Hk : drop 2 a <> key) by (intros <-; by apply Ha).
        destruct raw' as [|next raw'']; [by apply lookup_set_prop_ne|].
        destruct (negb (is_empty next) && negb (startsWith next (lit "--"))).
        -- rewrite IH; [by apply lookup_set_prop_ne | simpl in Hlen; lia |].
           intros b Hb. apply Hraw'. by apply list_elem_of_further.
        -- rewrite IH by (done || lia). by apply lookup_set_prop_ne.
    + apply IH; [lia | done].
Qed.

Lemma parse_loop_preserve key raw out :
  (forall a, a ∈ raw -> flag_key a <> Some key) ->
  parse_loop raw out !! key = out !! key.
Proof. by apply (parse_loop_preserve_le key (length raw)). Qed.

(** An argument that starts with two dashes is never taken as the value
    of the flag before it, so the loop can be cut in front of it. *)
Lemma parse_loop_app_flag_le a l n :
  startsWith a (lit "--") = true ->
  forall pre out, (length pre <= n)%nat ->
  parse_loop (pre ++ a :: l) out = parse_loop (a :: l) (parse_loop pre out).
Proof.
  intros Ha. induction n as [|n IH]; intros pre out Hlen.
  - destruct pre; [done | simpl in Hlen; lia].
  - destruct pre as [|x pre']; [done|]. simpl in Hlen.
    rewrite <- app_comm_cons.
    destruct (startsWith x (lit "--")) eqn:E1.
    + destruct (includes x [61]) eqn:E2.
      * rewrite !(parse_loop_eq_form x) by done. apply IH. lia.
      * destruct pre' as [|next pre''].
        -- rewrite app_nil_l, parse_loop_bare by (done || by right).
           by rewrite parse_loop_last.
        -- rewrite <- app_comm_cons. simpl in Hlen.
           destruct next as [|c next'].
           { rewrite !(parse_loop_bare x []) by (done || by left).
             rewrite app_comm_cons. apply IH. simpl. lia. }
           destruct (startsWith (c :: next') (lit "--")) eqn:E3.
           ++ rewrite !(parse_loop_bare x (c :: next')) by (done || by right).
              rewrite app_comm_cons. apply IH. simpl. lia.
           ++ rewrite !(parse_loop_value x (c :: next')) by done.
              apply IH. lia.
    + rewrite !(parse_loop_skip x) by done. apply IH. lia.
Qed.

Lemma parse_loop_app_flag a l pre out :
  startsWith a (lit "--") = true ->
  parse_loop (pre ++ a :: l) out = parse_loop (a :: l) (parse_loop pre out).
Proof. intros Ha. by apply (parse_loop_app_flag_le a l (length pre)). Qed.

(** A bare [--token], last or followed by another flag, stores [true]. *)
Lemma bare_token_true pre rest :
  (rest = [] \/ exists next r, rest = next :: r /\ startsWith next (lit "--") = true) ->
  (forall a, a ∈ rest -> flag_key a <> Some (lit "token")) ->
  parse_loop (pre ++ lit "--token" :: rest) ∅ !! lit "token" = Some VTrue.
Proof.
  intros Hrest Hkeys. rewrite parse_loop_app_flag by reflexivity.
  destruct Hrest as [-> | (next & r & -> & Hnext)].
  - rewrite parse_loop_last by reflexivity. by apply lookup_set_prop_eq.
  - rewrite parse_loop_bare by (reflexivity || by right).
    rewrite parse_loop_preserve by done. by apply lookup_set_prop_eq.
Qed.

End ParserLoop.

(** ** Token acquisition *)

Section TokenFacts.
Variable env : Env.
Variable cfg : Config.

Lemma getToken_boolean st :
  tokenArg cfg = VTrue -> getToken env cfg st = (Throw TypeError, st).
Proof. intros H. unfold getToken. rewrite H. reflexivity. Qed.

Lemma main_boolean st :
  tokenArg cfg = VTrue -> main env cfg st = (Throw TypeError, st).
Proof.
  intros H. unfold main, mbind, M_bind, bind.
  by rewrite getToken_boolean.
Qed.

End TokenFacts.

(** C10: a [--token] flag without a value (last argument, or followed by
    another [--flag]) is stored as the boolean [true]; token acquisition
    calls [trim] on it, so the main flow ends with an uncaught TypeError
    before any prompt, placeholder message or write, with or without
    [--dry-run].  On macOS and without a help flag, that is how the whole
    script ends. *)
Theorem bare_token_type_error (env : Env) (pre rest : list jsstring) (w : World) :
  (rest = [] \/
   exists next r, rest = next :: r /\ startsWith next (lit "--") = true) ->
  (forall a, a ∈ rest -> flag_key a <> Some (lit "token")) ->
  let argv := argv_of (pre ++ lit "--token" :: rest) in
  parseArgs argv !! lit "token" = Some VTrue
  /\ run (getToken env (config_of (parseArgs argv))) w
     = (Throw TypeError, {| world := w; trace := [] |})
  /\ run (main env (config_of (parseArgs argv))) w
     = (Throw TypeError, {| world := w; trace := [] |})
  /\ (platform env = lit "darwin" -> help_requested (parseArgs argv) = false ->
      run (script env argv) w
      = (Throw TypeError, {| world := w; trace := [] |})).
Proof.
  intros Hrest Hkeys argv.
  assert (Htok : parseArgs argv !! lit "token" = Some VTrue).
  { unfold argv, parseArgs, argv_of. cbn [drop]. by apply bare_token_true. }
  assert (Hcfg : tokenArg (config_of (parseArgs argv)) = VTrue).
  { unfold config_of. cbn [tokenArg]. by rewrite Htok. }
  split; [done|]. split; [by apply getToken_boolean|].
  split; [by apply main_boolean|].
  intros Hplat Hhelp. unfold run, script. rewrite Hplat, Hhelp.
  change (streq (lit "darwin") (lit "darwin")) with true. cbn [negb].
  by apply main_boolean.
Qed.

Lemma bare_token_type_error_witness :
  run (main env_mac
         (config_of (parseArgs (argv_of [lit "--org"; lit "acme"; lit "--token";
                                         lit "--dry-run"]))))
      world_empty
  = (Throw TypeError, {| world := world_empty; trace := [] |}).
Proof.
  refine (proj1 (proj2 (proj2
            (bare_token_type_error env_mac [lit "--org"; lit "acme"]
               [lit "--dry-run"] world_empty _ _)))).
  - right. exists (lit "--dry-run"), []. split; reflexivity.
  - intros a Ha. apply list_elem_of_singleton in Ha as ->. vm_compute. discriminate.
Defined.

(** The same arguments through the whole script. *)
Lemma bare_token_script_example :
  run (script env_mac (argv_of [lit "--org"; lit "acme"; lit "--token";
                                lit "--dry-run"])) world_empty
  = (Throw TypeError, {| world := world_empty; trace := [] |}).
Proof. vm_compute. reflexivity. Qed.

(** ** Running a sequence *)

Lemma bind_run {A B} (m : M A) (k : A -> M B) st a st1 :
  m st = (Ret a, st1) -> mbind k m st = k a st1.
Proof. unfold mbind, M_bind, bind. by intros ->. Qed.

(** ** Computations with restricted effects *)

Section Only.
Variable allowed : Event -> bool.
Hypothesis allowed_print : forall m, allowed (Print m) = true.
Hypothesis allowed_print_err : forall m, allowed (PrintErr m) = true.

Lemma only_ret {A} (a : A) : only allowed (ret a).
Proof.
  intros st r st' [= <- <-]. split; [done|]. exists []. by rewrite app_nil_r.
Qed.

Lemma only_exit {A} c : only allowed (@exit A c).
Proof.
  intros st r st' [= <- <-]. split; [done|]. exists []. by rewrite app_nil_r.
Qed.

Lemma only_throw {A} e : only allowed (@throw A e).
Proof.
  intros st r st' [= <- <-]. split; [done|]. exists []. by rewrite app_nil_r.
Qed.

Lemma only_pending {A} : only allowed (@pending A).
Proof.
  intros st r st' [= <- <-]. split; [done|]. exists []. by rewrite app_nil_r.
Qed.

Lemma only_emit e : allowed e = true -> only allowed (emit e).
Proof.
  intros He st r st' [= <- <-]. split; [done|]. exists [e]. split; [done|].
  by constructor.
Qed.

Lemma only_log m : only allowed (log m).
Proof. by apply only_emit. Qed.

Lemma only_log_err m : only allowed (log_err m).
Proof. by apply only_emit. Qed.

Lemma only_get_world : only allowed get_world.
Proof.
  intros st r st' [= <- <-]. split; [done|]. exists []. by rewrite app_nil_r.
Qed.

Lemma only_bind {A B} (m : M A) (k : A -> M B) :
  only allowed m -> (forall a, only allowed (k a)) -> only allowed (mbind k m).
Proof.
  intros Hm Hk st r st'. unfold mbind, M_bind, bind.
  destruct (m st) as [ra st1] eqn:Em.
  destruct (Hm _ _ _ Em) as (Hw1 & evs1 & Ht1 & Hc1).
  destruct ra as [a|c|e|].
  - intros Ek. destruct (Hk a _ _ _ Ek) as (Hw2 & evs2 & Ht2 & Hc2).
    split; [congruence|]. exists (evs1 ++ evs2).
    rewrite Ht2, Ht1, app_assoc. split; [done|]. by apply Forall_app.
  - intros [= <- <-]. eauto.
  - intros [= <- <-]. eauto.
  - intros [= <- <-]. eauto.
Qed.

Lemma only_try_catch {A} (m h : M A) :
  only allowed m -> only allowed h -> only allowed (try_catch m h).
Proof.
  intros Hm Hh st r st'. unfold try_catch.
  destruct (m st) as [ra st1] eqn:Em.
  destruct (Hm _ _ _ Em) as (Hw1 & evs1 & Ht1 & Hc1).
  destruct ra as [a|c|e|]; try (intros [= <- <-]; by eauto).
  intros Eh. destruct (Hh _ _ _ Eh) as (Hw2 & evs2 & Ht2 & Hc2).
  split; [congruence|]. exists (evs1 ++ evs2).
  rewrite Ht2, Ht1, app_assoc. split; [done|]. by apply Forall_app.
Qed.

Lemma only_fatal {A} m : only allowed (@fatal A m).
Proof.
  apply only_bind; [apply only_log_err | intros _; apply only_exit].
Qed.

Lemma only_existsSync p : only allowed (existsSync p).
Proof.
  apply only_bind; [apply only_get_world | intros w; apply only_ret].
Qed.

Lemma only_readFileSync env p : only allowed (readFileSync env p).
Proof.
  apply only_bind; [apply only_get_world | intros w].
  destruct (files w p); [|apply only_throw].
  destruct (read_ok env p); [apply only_ret | apply only_throw].
Qed.

End Only.

(** Splits a goal [only allowed m] along the structure of [m]. *)
Ltac only_step :=
  first
    [ apply only_ret | apply only_exit | apply only_throw | apply only_pending
    | apply only_log; done | apply only_log_err; done
    | apply only_fatal; done
    | apply only_get_world | apply only_existsSync
    | apply only_readFileSync
    | apply only_emit; reflexivity
    | apply only_try_catch
    | apply only_bind; [|intros ?]
    | match goal with
      | |- only _ (if ?b then _ else _) => destruct b eqn:?
      | |- only _ (match ?x with _ => _ end) => destruct x eqn:?
      end ].

Ltac console_step := unfold console_only; only_step.

Section DryRun.
Variable env : Env.
Variable cfg : Config.
Hypothesis Hdry : dryRun cfg = true.

Lemma console_detectRcFile : console_only (detectRcFile env).
Proof. unfold detectRcFile. repeat console_step. Qed.

Lemma console_getToken : console_only (getToken env cfg).
Proof. unfold getToken. rewrite Hdry. repeat console_step. Qed.

Lemma console_saveTokenToKeychain t : console_only (saveTokenToKeychain env cfg t).
Proof. unfold saveTokenToKeychain. rewrite Hdry. repeat console_step. Qed.

Lemma console_setupRcFile : console_only (setupRcFile env cfg).
Proof.
  unfold setupRcFile. rewrite Hdry.
  apply only_bind; [apply console_detectRcFile | intros rc].
  repeat console_step.
Qed.

Lemma console_setupNpmrc : console_only (setupNpmrc env cfg).
Proof. unfold setupNpmrc. rewrite Hdry. repeat console_step. Qed.

Lemma console_checkNpmToken : console_only (checkNpmToken env).
Proof. unfold checkNpmToken. repeat console_step. Qed.

Lemma console_validateNpm : console_only (validateNpm env cfg).
Proof. unfold validateNpm. rewrite Hdry. repeat console_step. Qed.

Lemma console_main : console_only (main env cfg).
Proof.
  unfold main. rewrite Hdry. cbn [negb].
  apply only_bind; [apply console_getToken | intros token].
  apply only_bind; [by apply only_ret | intros _].
  apply only_bind; [apply console_saveTokenToKeychain | intros _].
  apply only_bind; [apply console_setupRcFile | intros _].
  apply only_bind; [apply console_setupNpmrc | intros _].
  apply only_bind; [apply console_checkNpmToken | intros _].
  apply console_validateNpm.
Qed.

End DryRun.

(** C4: when the parsed configuration has the dry-run flag set, the whole
    script, whatever the other arguments, the environment and the file
    system are, leaves every file as it was and produces console output
    only: no Keychain command, no [npm whoami], no file or directory
    creation, no prompt. *)
Theorem dry_run_pure (env : Env) (argv : list jsstring) (w : World) :
  dryRun (config_of (parseArgs argv)) = true ->
  world (snd (run (script env argv) w)) = w
  /\ Forall (fun e => is_console e = true) (trace (snd (run (script env argv) w))).
Proof.
  intros Hdry.
  assert (Hs : console_only (script env argv)).
  { unfold script.
    destruct (negb (streq (platform env) (lit "darwin")));
      [by apply only_fatal|].
    destruct (help_requested (parseArgs argv)); [|by apply console_main].
    apply only_bind; [by apply only_log | intros _; apply only_exit]. }
  unfold run. destruct (script env argv _) as [r st'] eqn:E.
  destruct (Hs _ _ _ E) as (Hw & evs & Ht & Hc). simpl in *.
  split; [done|]. by rewrite Ht.
Qed.

Lemma dry_run_pure_witness :
  world (snd (run (script env_mac (argv_of [lit "--org"; lit "acme"; lit "--dry-run"]))
                  (world_with Npmrc (lit "color=true"))))
  = world_with Npmrc (lit "color=true")
  /\ Forall (fun e => is_console e = true)
       (trace (snd (run (script env_mac (argv_of [lit "--org"; lit "acme"; lit "--dry-run"]))
                        (world_with Npmrc (lit "color=true"))))).
Proof.
  apply (dry_run_pure env_mac (argv_of [lit "--org"; lit "acme"; lit "--dry-run"])).
  vm_compute. reflexivity.
Defined.

(** ** Empty tokens *)

Section EmptyToken.
Variable env : Env.
Variable cfg : Config.

Lemma not_write_onData chunks buf : only not_write (onData chunks buf).
Proof.
  revert buf. induction chunks as [|ch rest IH]; intros buf; simpl.
  - apply only_pending.
  - repeat only_step. apply IH.
Qed.

Lemma not_write_readHidden : only not_write (readHidden env).
Proof.
  unfold readHidden. repeat only_step. apply not_write_onData.
Qed.

(** A non-empty [--token] value made of white space is fatal at once. *)
Lemma getToken_blank_flag s st :
  tokenArg cfg = VStr s -> s <> [] -> trim s = [] ->
  getToken env cfg st
  = (Exit 1, {| world := world st;
                trace := trace st ++ [PrintErr MsgTokenEmpty] |}).
Proof.
  intros Ht Hs Htrim. unfold getToken. rewrite Ht.
  destruct s as [|c s]; [done|]. cbn [truthy is_empty negb].
  unfold mbind, M_bind, bind, ret. by rewrite Htrim.
Qed.

(** So is an interactive entry that is empty after trimming. *)
Lemma getToken_blank_input buf st st1 :
  tokenArg cfg = VStr [] -> dryRun cfg = false ->
  readHidden env st = (Ret buf, st1) -> trim buf = [] ->
  getToken env cfg st
  = (Exit 1, {| world := world st1;
                trace := trace st1 ++ [PrintErr MsgTokenEmpty] |}).
Proof.
  intros Ht Hdry Hread Htrim. unfold getToken. rewrite Ht, Hdry.
  cbn [truthy is_empty negb].
  unfold mbind, M_bind, bind, ret. rewrite Hread. by rewrite Htrim.
Qed.

End EmptyToken.

(** C5, as stated, fails for the flag with an empty value: [--token=] is
    taken as "no token given", so the interactive prompt (or, with
    [--dry-run], the placeholder) supplies the token and the run goes on
    to the Keychain write. *)
Lemma empty_token_flag_not_fatal :
  tokenArg (config_of (parseArgs (argv_of [lit "--token="]))) = VStr []
  /\ fst (run (script env_mac (argv_of [lit "--token="])) world_empty) = Ret tt
  /\ (KeychainAdd (lit "ghp")
       ∈ trace (snd (run (script env_mac (argv_of [lit "--token="])) world_empty)))
  /\ fst (run (script env_mac (argv_of [lit "--token="; lit "--dry-run"])) world_empty)
     = Ret tt.
Proof.
  split; [reflexivity|]. split; [vm_compute; reflexivity|]. split.
  - apply (bool_decide_eq_true_1 _). vm_compute. reflexivity.
  - vm_compute. reflexivity.
Qed.

(** C5, amended: when the token comes from a non-empty [--token] value or
    from the interactive prompt and is empty after trimming, the main flow
    ends with exit code 1, the last thing it does is print the empty-token
    error, and up to then nothing was written to the Keychain or to a
    file. *)
Theorem blank_token_fatal (env : Env) (cfg : Config) (w : World) :
  (exists s, tokenArg cfg = VStr s /\ s <> [] /\ trim s = [])
  \/ (tokenArg cfg = VStr [] /\ dryRun cfg = false /\
      exists buf, fst (run (readHidden env) w) = Ret buf /\ trim buf = []) ->
  fst (run (main env cfg) w) = Exit 1
  /\ world (snd (run (main env cfg) w)) = w
  /\ last (trace (snd (run (main env cfg) w))) = Some (PrintErr MsgTokenEmpty)
  /\ Forall (fun e => is_write e = false) (trace (snd (run (main env cfg) w))).
Proof.
  intros [(s & Ht & Hs & Htrim) | (Ht & Hdry & buf & Hread & Htrim)].
  - unfold run, main, mbind, M_bind, bind.
    rewrite (getToken_blank_flag env cfg s) by done. simpl.
    repeat split; repeat constructor.
  - unfold run in *.
    destruct (readHidden env _) as [r st1] eqn:E. simpl in Hread. subst r.
    unfold main, mbind, M_bind, bind.
    rewrite (getToken_blank_input env cfg buf _ st1) by done. simpl.
    destruct (not_write_readHidden env _ _ _ E) as (Hw & evs & Htr & Hall).
    simpl in *. rewrite Htr.
    split; [done|]. split; [done|]. split; [apply last_snoc|].
    apply Forall_app. split; [|repeat constructor].
    eapply Forall_impl; [exact Hall|]. intros e He. unfold not_write in He.
    by destruct (is_write e).
Qed.

Lemma blank_token_fatal_witness :
  fst (run (main env_mac {| org := VStr (lit "acme"); dryRun := false;
                            tokenArg := VStr (lit "  ") |}) world_empty)
  = Exit 1.
Proof.
  apply (blank_token_fatal env_mac
           {| org := VStr (lit "acme"); dryRun := false;
              tokenArg := VStr (lit "  ") |} world_empty).
  left. exists (lit "  ").
  split; [reflexivity|]. split; [discriminate | reflexivity].
Defined.

(** The interactive case of the same theorem: the user types a space and
    presses Enter. *)
Lemma blank_input_fatal_example :
  let env := {| platform := lit "darwin"; env_SHELL := Some (lit "/bin/zsh");
                env_NPM_TOKEN := None; env_USER := Some (lit "dev");
                stdin_isTTY := true; keystrokes := [lit " "; [13]];
                answer := lit "y"; keychain_add_ok := true;
                keychain_find := None; npm_whoami := NpmOk [];
                sh := fun _ w => (None, w);
                home_writable := true; mkdir_ok := true;
                write_ok := fun _ => true; read_ok := fun _ => true |} in
  run (main env cfg_acme) world_empty
  = (Exit 1, {| world := world_empty;
                trace := [Print MsgHiddenWarning; Print MsgHiddenPrompt;
                          RawInput; Print MsgNewline;
                          PrintErr MsgTokenEmpty] |}).
Proof. vm_compute. reflexivity. Qed.

(** ** The verifier *)

Section Lookup.
Variable env : Env.
Hypothesis Huser : sh_plain (USER env) = true.

(** With a plain account name the lookup command is the Keychain lookup. *)
Lemma getKeychainToken_run st :
  getKeychainToken env st
  = (Ret match keychain_find env with
         | Some out => trim out
         | None => default [] (env_NPM_TOKEN env)
         end,
     {| world := world st; trace := trace st ++ [KeychainFind] |}).
Proof using Huser.
  unfold getKeychainToken, execSync_find. rewrite Huser.
  cbv [try_catch mbind M_bind bind emit ret throw]. cbn [world trace].
  by destruct (keychain_find env).
Qed.

Lemma environment_yields_default :
  default [] (env_NPM_TOKEN env) = [] <-> ~ environment_yields env.
Proof using Type.
  unfold environment_yields. destruct (env_NPM_TOKEN env) as [t|]; simpl.
  - split.
    + intros -> (t' & [= <-] & Hne). done.
    + intros Hno. destruct t as [|c t]; [done|]. destruct Hno. by eexists.
  - split; [|done]. by intros _ (t' & [=] & _).
Qed.

End Lookup.

(** C8, as stated, fails.  The Keychain lookup succeeds but prints nothing
    (an entry with an empty password), and NPM_TOKEN holds a token: the
    fallback is not consulted, and the verifier ends with exit code 1 and
    the missing-credential message although the environment would have
    yielded a secret. *)
Lemma blank_lookup_no_fallback :
  keychain_find env_blank_entry = Some [NL]
  /\ environment_yields env_blank_entry
  /\ run (validateNpm env_blank_entry cfg_acme) world_empty
     = (Exit 1, {| world := world_empty;
                   trace := [KeychainFind; PrintErr MsgMissingCreds] |}).
Proof.
  split; [reflexivity|]. split; [|vm_compute; reflexivity].
  exists (lit "ghp_env"). split; [reflexivity | discriminate].
Qed.

(** C8, amended: outside dry-run (the account name being plain for the
    shell) the verifier reads the secret back from the Keychain: a lookup
    that succeeds gives its trimmed output, whatever NPM_TOKEN holds, and
    NPM_TOKEN is the secret exactly when the lookup command fails.  The
    verifier stops with exit code 1 and the missing-credential message,
    before [npm whoami], exactly when the lookup succeeds with blank output
    or the lookup fails and NPM_TOKEN is unset or empty; that covers every
    case in which neither source yields a secret.  In every other case
    [npm whoami] runs, with that secret. *)
Theorem verifier_credentials (env : Env) (cfg : Config) (w : World) :
  dryRun cfg = false -> sh_plain (USER env) = true ->
  let r := run (validateNpm env cfg) w in
  let missing := (Exit 1, {| world := w;
                             trace := [KeychainFind;
                                       PrintErr MsgMissingCreds] |}) in
  (forall out, keychain_find env = Some out ->
     run (getKeychainToken env) w
     = (Ret (trim out), {| world := w; trace := [KeychainFind] |}))
  /\ (keychain_find env = None ->
      run (getKeychainToken env) w
      = (Ret (default [] (env_NPM_TOKEN env)),
         {| world := w; trace := [KeychainFind] |}))
  /\ (r = missing
      <-> (exists out, keychain_find env = Some out /\ trim out = [])
          \/ (keychain_find env = None /\ ~ environment_yields env))
  /\ (~ vault_yields env -> ~ environment_yields env -> r = missing)
  /\ (r <> missing ->
      (PrintErr MsgMissingCreds ∉ trace (snd r))
      /\ exists secret,
           take 2 (trace (snd r)) = [KeychainFind; NpmWhoami secret]
           /\ secret <> []
           /\ ((exists out, keychain_find env = Some out /\ secret = trim out)
               \/ (keychain_find env = None
                   /\ env_NPM_TOKEN env = Some secret))).
Proof.
  intros Hdry Huser. cbv zeta.
  assert (Hget : forall st, getKeychainToken env st = _)
    by (intros st; by apply getKeychainToken_run).
  split; [intros out Hf; unfold run; by rewrite Hget, Hf|].
  split; [intros Hf; unfold run; by rewrite Hget, Hf|].
  (* the run of the verifier, by the secret that was obtained *)
  assert (Hrun : forall secret,
    match keychain_find env with
    | Some out => trim out
    | None => default [] (env_NPM_TOKEN env)
    end = secret ->
    (secret = [] ->
     run (validateNpm env cfg) w
     = (Exit 1, {| world := w;
                   trace := [KeychainFind; PrintErr MsgMissingCreds] |}))
    /\ (secret <> [] ->
        take 2 (trace (snd (run (validateNpm env cfg) w)))
        = [KeychainFind; NpmWhoami secret]
        /\ PrintErr MsgMissingCreds ∉ trace (snd (run (validateNpm env cfg) w)))).
  { intros secret Hs. unfold run, validateNpm. rewrite Hdry.
    rewrite (bind_run _ _ _ _ _ (Hget _)), Hs. cbn [world trace app].
    split.
    - intros ->. reflexivity.
    - intros Hne. destruct secret as [|c s]; [done|]. cbn [is_empty].
      destruct (npm_whoami env) as [out | out err].
      + destruct (negb (is_empty (trim out))); simpl;
          (split; [done|]); intros Hin;
          repeat (apply elem_of_cons in Hin as [Hin|Hin]; [discriminate|]);
          by apply elem_of_nil in Hin.
      + destruct (negb (is_empty out) || negb (is_empty err)); simpl;
          (split; [done|]); intros Hin;
          repeat (apply elem_of_cons in Hin as [Hin|Hin]; [discriminate|]);
          by apply elem_of_nil in Hin. }
  assert (Hiff : run (validateNpm env cfg) w
                 = (Exit 1, {| world := w;
                               trace := [KeychainFind;
                                         PrintErr MsgMissingCreds] |})
                 <-> (exists out, keychain_find env = Some out /\ trim out = [])
                     \/ (keychain_find env = None /\ ~ environment_yields env)).
  { destruct (keychain_find env) as [out|] eqn:Hf.
    - destruct (Hrun (trim out) eq_refl) as [Hempty Hfull]. split.
      + intros Hr. left. exists out. split; [done|].
        destruct (trim out) as [|c s] eqn:Et; [done|].
        destruct Hfull as [_ Hno]; [done|]. destruct Hno. rewrite Hr.
        apply list_elem_of_further, list_elem_of_here.
      + intros [(o & [= <-] & Ho) | [[=] _]]. by apply Hempty.
    - destruct (Hrun (default [] (env_NPM_TOKEN env)) eq_refl)
        as [Hempty Hfull]. split.
      + intros Hr. right. split; [done|]. apply environment_yields_default.
        destruct (default [] (env_NPM_TOKEN env)) as [|c s] eqn:Et; [done|].
        destruct Hfull as [_ Hno]; [done|]. destruct Hno. rewrite Hr.
        apply list_elem_of_further, list_elem_of_here.
      + intros [(o & [=] & _) | [_ Hno]].
        by apply Hempty, environment_yields_default. }
  split; [exact Hiff|]. split.
  - intros Hv He. apply Hiff.
    destruct (keychain_find env) as [out|] eqn:Hf; [left | by right].
    exists out. split; [done|].
    destruct (trim out) as [|c s] eqn:Et; [done|].
    destruct Hv. exists out. by rewrite Et.
  - intros Hnot.
    destruct (keychain_find env) as [out|] eqn:Hf.
    + destruct (Hrun (trim out) eq_refl) as [Hempty Hfull].
      destruct (trim out) as [|c s] eqn:Et; [by destruct Hnot; apply Hempty|].
      destruct Hfull as [Htake Hno]; [done|]. split; [done|].
      exists (c :: s). split; [done|]. split; [done|]. left. by exists out.
    + destruct (Hrun (default [] (env_NPM_TOKEN env)) eq_refl)
        as [Hempty Hfull].
      destruct (env_NPM_TOKEN env) as [[|c s]|] eqn:Et;
        try (by destruct Hnot; apply Hempty).
      destruct Hfull as [Htake Hno]; [done|]. split; [done|].
      exists (c :: s). split; [done|]. split; [done|]. by right.
Qed.

Lemma verifier_credentials_witness :
  run (getKeychainToken env_mac) world_empty
  = (Ret (lit "ghp"), {| world := world_empty; trace := [KeychainFind] |}).
Proof.
  refine (proj1 (verifier_credentials env_mac cfg_acme world_empty _ _)
            (lit "ghp" ++ [NL]) _); reflexivity.
Defined.

(** ** The registry config writer *)

Arguments hasCorrectRegistry : simpl never.
Arguments hasCorrectAuthToken : simpl never.
Arguments updatedContent : simpl never.
Arguments npmrcContent : simpl never.
Arguments hasKeychainLoader : simpl never.
Arguments loader : simpl never.

Section NpmrcStage.
Variable env : Env.
Variable cfg : Config.
Hypothesis Hdry : dryRun cfg = false.
Hypothesis Hhome : home_writable env = true.
Hypothesis Hwrite : write_ok env Npmrc = true.
Hypothesis Hread : read_ok env Npmrc = true.

Ltac run_stage :=
  cbv [setupNpmrc try_catch mbind M_bind bind accessSync_home existsSync
       readFileSync writeFileSync get_world put_world emit log log_err ret
       throw exit fatal].

(** No file yet: it is created with the two lines. *)
Lemma setupNpmrc_fresh st :
  files (world st) Npmrc = None ->
  setupNpmrc env cfg st
  = (Ret tt,
     {| world := set_file Npmrc (npmrcContent (org cfg)) (world st);
        trace := trace st ++ [WriteFile Npmrc (npmrcContent (org cfg));
                              Print MsgNpmrcCreated] |}).
Proof.
  intros Hf. run_stage. rewrite Hdry, Hhome, Hf. simpl.
  rewrite Hwrite. simpl. by rewrite <- app_assoc.
Qed.

(** Both lines already there: nothing is written. *)
Lemma setupNpmrc_skip st c :
  files (world st) Npmrc = Some c ->
  hasCorrectRegistry (org cfg) c && hasCorrectAuthToken c = true ->
  setupNpmrc env cfg st
  = (Ret tt, {| world := world st;
                trace := trace st ++ [Print MsgNpmrcSkip] |}).
Proof.
  intros Hf Hc. run_stage. rewrite Hdry, Hhome, Hf. simpl.
  rewrite Hf, Hread, Hc. reflexivity.
Qed.

(** Otherwise the file is rewritten with the merged lines. *)
Lemma setupNpmrc_merge st c :
  files (world st) Npmrc = Some c ->
  hasCorrectRegistry (org cfg) c && hasCorrectAuthToken c = false ->
  setupNpmrc env cfg st
  = (Ret tt,
     {| world := set_file Npmrc (updatedContent (org cfg) c) (world st);
        trace := trace st ++ [WriteFile Npmrc (updatedContent (org cfg) c);
                              Print MsgNpmrcUpdated] |}).
Proof.
  intros Hf Hc. run_stage. rewrite Hdry, Hhome, Hf. simpl.
  rewrite Hf, Hread, Hc. simpl. rewrite Hwrite. simpl. by rewrite <- app_assoc.
Qed.

End NpmrcStage.

Section NpmrcLines.
Implicit Types (c line : jsstring) (o : value) (l kept : list jsstring).

Lemma filter_filter (f g : jsstring -> bool) l :
  List.filter f (List.filter g l) = List.filter (fun x => g x && f x) l.
Proof.
  induction l as [|x l IH]; simpl; [done|].
  destruct (g x); simpl; [|done]. destruct (f x); by rewrite IH.
Qed.

Lemma Forall_filter_intro (P : jsstring -> Prop) (f : jsstring -> bool) l :
  (forall x, x ∈ l -> f x = true -> P x) -> Forall P (List.filter f l).
Proof.
  induction l as [|x l IH]; intros H; simpl; [constructor|].
  destruct (f x) eqn:E.
  - constructor; [apply H; [left | done] |].
    apply IH. intros y Hy. apply H. by right.
  - apply IH. intros y Hy. apply H. by right.
Qed.

Lemma filter_all (f : jsstring -> bool) l :
  Forall (fun x => f x = true) l -> List.filter f l = l.
Proof. induction 1 as [|x l Hx _ IH]; simpl; [done|]. by rewrite Hx, IH. Qed.

Lemma filter_none (f : jsstring -> bool) l :
  Forall (fun x => f x = false) l -> List.filter f l = [].
Proof. induction 1 as [|x l Hx _ IH]; simpl; [done|]. by rewrite Hx. Qed.

Lemma keep_line_stale line : keep_line line = negb (is_stale line).
Proof.
  unfold keep_line, is_stale, is_registry_directive, is_auth_directive.
  destruct (endsWith line REGISTRY_SUFFIX); [done|].
  by destruct (startsWith line AUTH_PREFIX).
Qed.

(** The two filters of the source select the unrelated lines. *)
Lemma filteredLines_unrelated c : filteredLines c = unrelated_lines c.
Proof.
  unfold filteredLines, existingLines, unrelated_lines. rewrite filter_filter.
  induction (split NL c) as [|x l IH]; simpl; [done|].
  unfold is_blank. rewrite keep_line_stale. by rewrite IH.
Qed.

Lemma unrelated_no_NL c : Forall (fun x => NL ∉ x) (unrelated_lines c).
Proof.
  apply Forall_filter_intro. intros x Hx _.
  pose proof (split_pieces NL c) as Hp. rewrite Forall_forall in Hp. auto.
Qed.

Lemma unrelated_not_blank c :
  Forall (fun x => negb (is_blank x) = true) (unrelated_lines c).
Proof.
  apply Forall_filter_intro. intros x _ Hx. by apply andb_true_iff in Hx as [? _].
Qed.

Lemma unrelated_not_stale c :
  Forall (fun x => is_stale x = false) (unrelated_lines c).
Proof.
  apply Forall_filter_intro. intros x _ Hx.
  apply andb_true_iff in Hx as [_ Hx]. by destruct (is_stale x).
Qed.

Lemma registryLine_no_NL o : NL ∉ toString o -> NL ∉ registryLine o.
Proof.
  intros Ho. unfold registryLine. rewrite !elem_of_app.
  intros [H | [H | H]]; [|done|]; revert H;
    apply (bool_decide_eq_false_1 _); vm_compute; reflexivity.
Qed.

Lemma authTokenLine_no_NL : NL ∉ authTokenLine.
Proof. apply (bool_decide_eq_false_1 _). vm_compute. reflexivity. Qed.

Lemma registryLine_not_blank o : is_blank (registryLine o) = false.
Proof.
  unfold is_blank. destruct (is_empty (trim (registryLine o))) eqn:E; [|done].
  apply trim_empty_iff in E. inversion E; subst. discriminate.
Qed.

Lemma registryLine_is_registry o : is_registry_directive (registryLine o) = true.
Proof.
  apply endsWith_true. exists (lit "@" ++ toString o).
  unfold registryLine. by rewrite <- app_assoc.
Qed.

Lemma registryLine_not_auth o : is_auth_directive (registryLine o) = false.
Proof. reflexivity. Qed.

(** The lines of a file written as [kept], the two desired lines, and a
    final line break. *)
Lemma split_written o kept :
  NL ∉ toString o -> Forall (fun x => NL ∉ x) kept ->
  split NL (join [NL] (kept ++ npmrcLines o) ++ [NL])
  = kept ++ npmrcLines o ++ [[]].
Proof.
  intros Ho Hk. rewrite split_snoc_sep, split_join.
  - by rewrite <- app_assoc.
  - by destruct kept.
  - apply Forall_app. split; [done|].
    repeat constructor; [by apply registryLine_no_NL | apply authTokenLine_no_NL].
Qed.

Lemma existingLines_written o kept :
  NL ∉ toString o -> Forall (fun x => NL ∉ x) kept ->
  Forall (fun x => negb (is_blank x) = true) kept ->
  existingLines (join [NL] (kept ++ npmrcLines o) ++ [NL])
  = kept ++ npmrcLines o.
Proof.
  intros Ho Hk Hb. unfold existingLines. rewrite split_written by done.
  rewrite !List.filter_app, (filter_all _ kept) by done.
  f_equal. simpl.
  fold (is_blank (registryLine o)). rewrite registryLine_not_blank.
  reflexivity.
Qed.

Lemma count_registry_written o kept :
  Forall (fun x => is_stale x = false) kept ->
  count_lines is_registry_directive (kept ++ npmrcLines o ++ [[]]) = 1%nat.
Proof.
  intros Hk. unfold count_lines. rewrite List.filter_app, filter_none.
  - simpl. rewrite registryLine_is_registry. reflexivity.
  - eapply Forall_impl; [exact Hk|]. intros x Hx. unfold is_stale in Hx.
    by apply orb_false_iff in Hx as [? _].
Qed.

Lemma count_auth_written o kept :
  Forall (fun x => is_stale x = false) kept ->
  count_lines is_auth_directive (kept ++ npmrcLines o ++ [[]]) = 1%nat.
Proof.
  intros Hk. unfold count_lines. rewrite List.filter_app, filter_none.
  - reflexivity.
  - eapply Forall_impl; [exact Hk|]. intros x Hx. unfold is_stale in Hx.
    by apply orb_false_iff in Hx as [_ ?].
Qed.

Lemma updatedContent_unrelated o c :
  updatedContent o c = join [NL] (unrelated_lines c ++ npmrcLines o) ++ [NL].
Proof.
  unfold updatedContent, updatedLines. by rewrite filteredLines_unrelated.
Qed.

Lemma array_includes_elem l x : array_includes l x = true -> x ∈ l.
Proof.
  unfold array_includes. intros (y & Hy & Heq)%existsb_exists.
  apply bool_decide_eq_true in Heq. subst. by apply list_elem_of_In.
Qed.

Lemma existingLines_subset c x : x ∈ existingLines c -> x ∈ split NL c.
Proof.
  unfold existingLines. rewrite !list_elem_of_In, filter_In. tauto.
Qed.

End NpmrcLines.

(** C1, as stated, fails in two ways.  When the file already holds both
    desired lines the writer returns without writing: a stale directive of
    another organization stays and the desired lines are not the last two.
    And when it does rewrite the file, a line of white space is dropped. *)
Lemma merge_not_always :
  run (setupNpmrc env_mac cfg_acme) (world_with Npmrc npmrc_configured_first)
    = (Ret tt, {| world := world_with Npmrc npmrc_configured_first;
                  trace := [Print MsgNpmrcSkip] |})
  /\ existingLines npmrc_configured_first
     = [line_registry_acme; line_auth_env; line_registry_old; lit "color=true"]
  /\ npmrc_after (run (setupNpmrc env_mac cfg_acme)
                      (world_with Npmrc npmrc_with_blank))
     = Some (lit "color=true" ++ [NL] ++ line_registry_acme ++ [NL] ++
             line_auth_env ++ [NL])
  /\ (lit "   " ∈ split NL npmrc_with_blank).
Proof.
  split; [|split; [|split]].
  - vm_compute. reflexivity.
  - vm_compute. reflexivity.
  - vm_compute. reflexivity.
  - apply (bool_decide_eq_true_1 _). vm_compute. reflexivity.
Qed.

(** C1, amended: for an organization name without a line break and an
    existing file, one non-dry-run run of the writer returns normally;
    if the file already held both desired lines verbatim it is left as it
    was; otherwise the new file consists of the lines of the old one that
    are neither blank nor directives for the registry host, in their
    original order, followed by the scope line and the auth-token line as
    the last two lines, and no other file changes. *)
Theorem npmrc_merge (env : Env) (cfg : Config) (w : World) (c : jsstring) :
  dryRun cfg = false -> home_writable env = true ->
  write_ok env Npmrc = true -> read_ok env Npmrc = true ->
  files w Npmrc = Some c -> NL ∉ toString (org cfg) ->
  fst (run (setupNpmrc env cfg) w) = Ret tt
  /\ (already_configured (org cfg) w = true ->
      world (snd (run (setupNpmrc env cfg) w)) = w)
  /\ (already_configured (org cfg) w = false ->
      exists c',
        npmrc_after (run (setupNpmrc env cfg) w) = Some c'
        /\ c' = join [NL] (unrelated_lines c ++ npmrcLines (org cfg)) ++ [NL]
        /\ split NL c'
           = unrelated_lines c ++ [registryLine (org cfg); authTokenLine; []]
        /\ existingLines c'
           = unrelated_lines c ++ [registryLine (org cfg); authTokenLine]
        /\ Forall (fun x => is_stale x = false) (unrelated_lines c)
        /\ forall p, p <> Npmrc ->
             files (world (snd (run (setupNpmrc env cfg) w))) p = files w p).
Proof.
  intros Hdry Hhome Hwrite Hread Hf Horg.
  unfold already_configured, run. rewrite Hf.
  destruct (hasCorrectRegistry (org cfg) c && hasCorrectAuthToken c) eqn:Hc.
  - rewrite (setupNpmrc_skip env cfg Hdry Hhome Hread _ c) by done.
    split; [done|]. split; [done | discriminate].
  - rewrite (setupNpmrc_merge env cfg Hdry Hhome Hwrite Hread _ c) by done.
    split; [done|]. split; [discriminate|]. intros _.
    exists (updatedContent (org cfg) c). unfold npmrc_after. simpl.
    split; [done|]. rewrite updatedContent_unrelated.
    split; [done|]. split; [|split; [|split]].
    + apply split_written; [done | apply unrelated_no_NL].
    + apply existingLines_written;
        [done | apply unrelated_no_NL | apply unrelated_not_blank].
    + apply unrelated_not_stale.
    + intros p Hp. by destruct (decide (p = Npmrc)).
Qed.

Lemma npmrc_merge_witness :
  fst (run (setupNpmrc env_mac cfg_acme) (world_with Npmrc npmrc_with_blank))
  = Ret tt.
Proof.
  apply (npmrc_merge env_mac cfg_acme (world_with Npmrc npmrc_with_blank)
           npmrc_with_blank); try reflexivity.
  apply (bool_decide_eq_false_1 _). vm_compute. reflexivity.
Defined.

(** C2, as stated, fails: a file that already holds both desired lines is
    not rewritten, so a second auth-token line with a literal token stays
    in it.  Besides, the scope line never mentions the variable. *)
Lemma invariant_not_always :
  npmrc_after (run (setupNpmrc env_mac cfg_acme)
                   (world_with Npmrc npmrc_literal_secret))
    = Some npmrc_literal_secret
  /\ count_lines is_auth_directive (split NL npmrc_literal_secret) = 2%nat
  /\ (line_auth_literal ∈ split NL npmrc_literal_secret)
  /\ includes (registryLine (VStr (lit "acme"))) (lit "${NPM_TOKEN}") = false.
Proof.
  split; [|split; [|split]].
  - vm_compute. reflexivity.
  - vm_compute. reflexivity.
  - apply (bool_decide_eq_true_1 _). vm_compute. reflexivity.
  - vm_compute. reflexivity.
Qed.

(** C2, amended: for an organization name without a line break, after a
    non-dry-run run of the writer the file contains the scope line of the
    configured organization and the auth-token line that refers to
    ${NPM_TOKEN}.  When the run creates or rewrites the file, that is when
    the file did not already hold both lines verbatim, these are the only
    scope-to-registry line and the only auth-token line for the registry
    host; a file that already held both lines is left untouched. *)
Theorem npmrc_invariant (env : Env) (cfg : Config) (w : World) :
  dryRun cfg = false -> home_writable env = true ->
  write_ok env Npmrc = true -> read_ok env Npmrc = true ->
  NL ∉ toString (org cfg) ->
  exists c',
    fst (run (setupNpmrc env cfg) w) = Ret tt
    /\ npmrc_after (run (setupNpmrc env cfg) w) = Some c'
    /\ (registryLine (org cfg) ∈ split NL c')
    /\ (authTokenLine ∈ split NL c')
    /\ includes authTokenLine (lit "${NPM_TOKEN}") = true
    /\ (already_configured (org cfg) w = true -> files w Npmrc = Some c')
    /\ (already_configured (org cfg) w = false ->
        count_lines is_registry_directive (split NL c') = 1%nat
        /\ count_lines is_auth_directive (split NL c') = 1%nat).
Proof.
  intros Hdry Hhome Hwrite Hread Horg.
  assert (Hwritten : forall kept,
    Forall (fun x => NL ∉ x) kept -> Forall (fun x => is_stale x = false) kept ->
    let c' := join [NL] (kept ++ npmrcLines (org cfg)) ++ [NL] in
    (registryLine (org cfg) ∈ split NL c') /\ (authTokenLine ∈ split NL c')
    /\ count_lines is_registry_directive (split NL c') = 1%nat
    /\ count_lines is_auth_directive (split NL c') = 1%nat).
  { intros kept Hk Hs. cbv zeta. rewrite split_written by done.
    split; [|split; [|split]].
    - rewrite elem_of_app. right. left.
    - rewrite elem_of_app. right. right. left.
    - by apply count_registry_written.
    - by apply count_auth_written. }
  unfold already_configured, run, npmrc_after.
  destruct (files w Npmrc) as [c|] eqn:Hf.
  - destruct (hasCorrectRegistry (org cfg) c && hasCorrectAuthToken c) eqn:Hc.
    + exists c.
      rewrite (setupNpmrc_skip env cfg Hdry Hhome Hread _ c) by done. simpl.
      apply andb_true_iff in Hc as [Hr Ha].
      repeat split; try done.
      * by apply existingLines_subset, array_includes_elem.
      * by apply existingLines_subset, array_includes_elem.
    + exists (updatedContent (org cfg) c).
      rewrite (setupNpmrc_merge env cfg Hdry Hhome Hwrite Hread _ c) by done.
      simpl. rewrite updatedContent_unrelated.
      destruct (Hwritten (unrelated_lines c)) as (H1 & H2 & H3 & H4);
        [apply unrelated_no_NL | apply unrelated_not_stale |].
      repeat split; done.
  - exists (npmrcContent (org cfg)).
    rewrite (setupNpmrc_fresh env cfg Hdry Hhome Hwrite) by done.
    simpl.
    destruct (Hwritten []) as (H1 & H2 & H3 & H4); [constructor..|].
    repeat split; done.
Qed.

Lemma npmrc_invariant_witness :
  exists c',
    fst (run (setupNpmrc env_mac cfg_acme) (world_with Npmrc npmrc_with_blank))
    = Ret tt
    /\ npmrc_after (run (setupNpmrc env_mac cfg_acme)
                        (world_with Npmrc npmrc_with_blank)) = Some c'
    /\ (registryLine (org cfg_acme) ∈ split NL c')
    /\ (authTokenLine ∈ split NL c')
    /\ includes authTokenLine (lit "${NPM_TOKEN}") = true
    /\ (already_configured (org cfg_acme) (world_with Npmrc npmrc_with_blank)
        = true -> files (world_with Npmrc npmrc_with_blank) Npmrc = Some c')
    /\ (already_configured (org cfg_acme) (world_with Npmrc npmrc_with_blank)
        = false ->
        count_lines is_registry_directive (split NL c') = 1%nat
        /\ count_lines is_auth_directive (split NL c') = 1%nat).
Proof.
  apply (npmrc_invariant env_mac cfg_acme (world_with Npmrc npmrc_with_blank));
    try reflexivity.
  apply (bool_decide_eq_false_1 _). vm_compute. reflexivity.
Defined.

(** ** The three versions of the registry config stage *)

Section Versions.
Variable env : Env.
Variable cfg : Config.
Hypothesis Hdry : dryRun cfg = false.
Hypothesis Hwrite : write_ok env Npmrc = true.

Lemma npmrcContent_v1_eq o : npmrcContent_v1 o = npmrcContent o.
Proof.
  unfold npmrcContent_v1, npmrcContent, npmrcLines, registryLine. cbn [join].
  by rewrite <- !app_assoc.
Qed.

Lemma writeNpmrc_v1_run st :
  writeNpmrc_v1 env cfg st
  = (Ret tt,
     {| world := set_file Npmrc (npmrcContent (org cfg)) (world st);
        trace := trace st ++ [WriteFile Npmrc (npmrcContent (org cfg));
                              Print MsgNpmrcWritten] |}).
Proof.
  unfold writeNpmrc_v1. rewrite Hdry, npmrcContent_v1_eq.
  cbv [try_catch mbind M_bind bind writeFileSync get_world put_world emit log
       ret throw].
  rewrite Hwrite. simpl. by rewrite <- app_assoc.
Qed.

Lemma writeNpmrc_v2_v1 : writeNpmrc_v2 env cfg = writeNpmrc_v1 env cfg.
Proof. reflexivity. Qed.

End Versions.

Lemma join_app_length (kept l : list jsstring) :
  l <> [] ->
  (length (join [NL] l) + length kept <= length (join [NL] (kept ++ l)))%nat.
Proof.
  intros Hl. induction kept as [|x kept IH]; [simpl; lia|].
  rewrite <- app_comm_cons.
  destruct (kept ++ l) as [|y r] eqn:E.
  { by destruct kept, l. }
  change (join [NL] (x :: y :: r)) with (x ++ [NL] ++ join [NL] (y :: r)).
  rewrite !length_app. simpl in *. lia.
Qed.

(** C9, as stated, fails: on a file with one unrelated setting the first
    version overwrites it with the two lines, the final version keeps the
    setting in front of them. *)
Lemma versions_differ :
  npmrc_after (run (writeNpmrc_v1 env_mac cfg_acme) (world_with Npmrc npmrc_unrelated))
    = Some (line_registry_acme ++ [NL] ++ line_auth_env ++ [NL])
  /\ npmrc_after (run (writeNpmrc_v2 env_mac cfg_acme) (world_with Npmrc npmrc_unrelated))
    = Some (line_registry_acme ++ [NL] ++ line_auth_env ++ [NL])
  /\ npmrc_after (run (setupNpmrc env_mac cfg_acme) (world_with Npmrc npmrc_unrelated))
    = Some (lit "color=true" ++ [NL] ++ line_registry_acme ++ [NL] ++
            line_auth_env ++ [NL]).
Proof. repeat split; vm_compute; reflexivity. Qed.

(** C9, amended: on a non-dry-run run the first two versions always leave
    the same file, holding exactly the two desired lines.  The final version
    leaves that same file exactly in these cases: the file did not exist;
    or it existed, did not already hold both desired lines, and had no line
    other than blank lines and directives for the registry host; or it
    already was the two desired lines.  In every other case the final
    version keeps more than the earlier ones. *)
Theorem versions_agree (env : Env) (cfg : Config) (w : World) :
  dryRun cfg = false -> home_writable env = true ->
  write_ok env Npmrc = true -> read_ok env Npmrc = true ->
  npmrc_after (run (writeNpmrc_v1 env cfg) w) = Some (npmrcContent (org cfg))
  /\ npmrc_after (run (writeNpmrc_v2 env cfg) w)
     = npmrc_after (run (writeNpmrc_v1 env cfg) w)
  /\ (npmrc_after (run (setupNpmrc env cfg) w)
      = npmrc_after (run (writeNpmrc_v1 env cfg) w)
      <-> match files w Npmrc with
          | None => True
          | Some c =>
              if already_configured (org cfg) w
              then c = npmrcContent (org cfg)
              else unrelated_lines c = []
          end).
Proof.
  intros Hdry Hhome Hwrite Hread.
  change (writeNpmrc_v2 env cfg) with (writeNpmrc_v1 env cfg).
  unfold run, npmrc_after.
  rewrite (writeNpmrc_v1_run env cfg Hdry Hwrite). simpl.
  split; [done|]. split; [done|].
  unfold already_configured.
  destruct (files w Npmrc) as [c|] eqn:Hf.
  - destruct (hasCorrectRegistry (org cfg) c && hasCorrectAuthToken c) eqn:Hc.
    + rewrite (setupNpmrc_skip env cfg Hdry Hhome Hread _ c) by done. simpl.
      rewrite Hf. split; congruence.
    + rewrite (setupNpmrc_merge env cfg Hdry Hhome Hwrite Hread _ c) by done.
      simpl. rewrite updatedContent_unrelated. split.
      * intros [= Heq]. unfold npmrcContent in Heq.
        apply app_inv_tail in Heq.
        pose proof (join_app_length (unrelated_lines c) (npmrcLines (org cfg))) as Hlen.
        rewrite Heq in Hlen.
        destruct (unrelated_lines c); [done|]. simpl in Hlen.
        specialize (Hlen ltac:(done)). lia.
      * intros ->. done.
  - rewrite (setupNpmrc_fresh env cfg Hdry Hhome Hwrite) by done. simpl.
    done.
Qed.

Lemma versions_agree_witness :
  npmrc_after (run (writeNpmrc_v1 env_mac cfg_acme) world_empty)
  = Some (npmrcContent (org cfg_acme)).
Proof.
  apply (versions_agree env_mac cfg_acme world_empty); reflexivity.
Defined.

(** ** The shell profile updater *)

Section LoaderOccurrences.

Lemma loader_has_markers : hasKeychainLoader loader = true.
Proof. vm_compute. reflexivity. Qed.

Lemma hasKeychainLoader_mono a s b :
  hasKeychainLoader s = true -> hasKeychainLoader (a ++ s ++ b) = true.
Proof.
  unfold hasKeychainLoader. rewrite !andb_true_iff, !includes_true.
  intros [(a1 & b1 & H1) (a2 & b2 & H2)]. split.
  - exists (a ++ a1), (b1 ++ b). rewrite H1 at 1. by rewrite <- !app_assoc.
  - exists (a ++ a2), (b2 ++ b). rewrite H2 at 1. by rewrite <- !app_assoc.
Qed.

Lemma hasKeychainLoader_appended s : hasKeychainLoader (s ++ loader) = true.
Proof.
  rewrite <- (app_nil_r loader). apply hasKeychainLoader_mono, loader_has_markers.
Qed.

Lemma hasKeychainLoader_tail x s :
  hasKeychainLoader (x :: s) = false -> hasKeychainLoader s = false.
Proof.
  intros H. destruct (hasKeychainLoader s) eqn:E; [|done].
  rewrite <- H. symmetry.
  apply (hasKeychainLoader_mono [x] s []) in E. by rewrite app_nil_r in E.
Qed.

(** No proper border of the loader is free of the markers: checked for
    every cut position. *)
Lemma loader_borders :
  forallb (fun k => negb (startsWith loader (drop k loader))
                    || hasKeychainLoader (take k loader))
          (seq 1 (length loader)) = true.
Proof. vm_compute. reflexivity. Qed.

(** Text without the markers in front of the loader does not complete an
    earlier copy of it. *)
Lemma no_early_loader s :
  s <> [] -> hasKeychainLoader s = false ->
  startsWith (s ++ loader) loader = false.
Proof.
  intros Hs Hno. destruct (startsWith (s ++ loader) loader) eqn:E; [|done].
  exfalso. apply startsWith_true in E as [t Ht].
  apply app_eq_inv in Ht as [(k & Hk & _) | (k & Hk & Hk')].
  - rewrite Hk in Hno.
    pose proof (hasKeychainLoader_mono [] loader k loader_has_markers).
    simpl in *. congruence.
  - pose proof loader_borders as Hb. rewrite forallb_forall in Hb.
    assert (Hlen : length loader = (length s + length k)%nat).
    { rewrite Hk at 1. by rewrite length_app. }
    assert (Hin : In (length s) (seq 1 (length loader))).
    { apply in_seq. rewrite Hlen. destruct s; [done|]. cbn [length]. lia. }
    specialize (Hb _ Hin).
    assert (Htake : take (length s) loader = s).
    { rewrite Hk at 1. by rewrite take_app_length. }
    assert (Hdrop : drop (length s) loader = k).
    { rewrite Hk at 1. by rewrite drop_app_length. }
    assert (Hsw : startsWith loader k = true).
    { apply startsWith_true. eauto. }
    rewrite Htake, Hdrop, Hno, Hsw in Hb. discriminate.
Qed.

(** After the append the loader occurs exactly once. *)
Lemma loader_once s :
  hasKeychainLoader s = false -> occurrences loader (s ++ loader) = 1%nat.
Proof.
  induction s as [|x s IH]; intros Hno.
  - vm_compute. reflexivity.
  - change (occurrences loader ((x :: s) ++ loader))
      with ((if startsWith ((x :: s) ++ loader) loader then 1 else 0)
            + occurrences loader (s ++ loader))%nat.
    rewrite no_early_loader by done.
    rewrite IH; [done|]. by apply hasKeychainLoader_tail in Hno.
Qed.

End LoaderOccurrences.

Section RcStage.
Variable env : Env.
Variable cfg : Config.
Variable rc : Path.
Hypothesis Hdry : dryRun cfg = false.
Hypothesis Hwrite : write_ok env rc = true.
Hypothesis Hread : read_ok env rc = true.

Lemma detectRcFile_run st :
  rcTarget env (world st) = Some rc ->
  detectRcFile env st = (Ret (Some rc), st).
Proof using Type.
  unfold rcTarget, detectRcFile.
  destruct (streq (basename (default [] (env_SHELL env))) (lit "zsh")).
  - intros H. by rewrite <- H.
  - destruct (streq (basename (default [] (env_SHELL env))) (lit "bash"));
      [|discriminate].
    intros H. by rewrite <- H.
Qed.

Ltac run_rc :=
  cbv [try_catch mbind M_bind bind existsSync readFileSync writeFileSync
       appendFileSync mkdirSync_home get_world put_world emit log log_err ret
       throw exit fatal];
  repeat first
    [ progress cbn [world trace files home_exists negb default from_option]
    | rewrite bool_decide_eq_true_2 by eauto
    | rewrite bool_decide_eq_false_2 by (by intros [? ?])
    | rewrite decide_True by done
    | match goal with H : _ = _ |- _ => rewrite H end ].

(** The markers are there: nothing is written. *)
Lemma setupRcFile_skip st c :
  rcTarget env (world st) = Some rc ->
  files (world st) rc = Some c -> hasKeychainLoader c = true ->
  setupRcFile env cfg st
  = (Ret tt, {| world := world st;
                trace := trace st ++ [Print (MsgRcSkip rc)] |}).
Proof using Hread.
  intros Ht Hf Hc. unfold setupRcFile.
  rewrite (bind_run _ _ _ _ _ (detectRcFile_run st Ht)).
  run_rc. reflexivity.
Qed.

(** The file exists without the markers: the loader is appended. *)
Lemma setupRcFile_append st c :
  rcTarget env (world st) = Some rc ->
  files (world st) rc = Some c -> hasKeychainLoader c = false ->
  setupRcFile env cfg st
  = (Ret tt, {| world := set_file rc (c ++ loader) (world st);
                trace := trace st ++ [AppendFile rc loader;
                                      Print (MsgRcAppended rc)] |}).
Proof using Hdry Hwrite Hread.
  intros Ht Hf Hc. unfold setupRcFile.
  rewrite (bind_run _ _ _ _ _ (detectRcFile_run st Ht)).
  run_rc. by rewrite <- app_assoc.
Qed.

(** The file is missing: it is created empty, then the loader is
    appended. *)
Lemma setupRcFile_create st :
  rcTarget env (world st) = Some rc ->
  files (world st) rc = None ->
  home_exists (world st) = true \/ mkdir_ok env = true ->
  exists st',
    setupRcFile env cfg st = (Ret tt, st')
    /\ files (world st') rc = Some loader
    /\ (forall q, q <> rc -> files (world st') q = files (world st) q)
    /\ List.filter is_append (trace st')
       = List.filter is_append (trace st) ++ [AppendFile rc loader].
Proof using Hdry Hwrite Hread.
  intros Ht Hf Hhome. unfold setupRcFile.
  rewrite (bind_run _ _ _ _ _ (detectRcFile_run st Ht)).
  assert (Hnone : hasKeychainLoader [] = false) by reflexivity.
  destruct (home_exists (world st)) eqn:Hh.
  - run_rc. unfold set_file. run_rc.
    eexists. split; [reflexivity|]. cbn [world files trace].
    rewrite decide_True by done.
    split; [done|]. split.
    + intros q Hq. by rewrite !decide_False by done.
    + rewrite !List.filter_app. simpl. by rewrite !app_nil_r.
  - destruct Hhome as [|Hmk]; [done|].
    run_rc. unfold set_file. run_rc.
    eexists. split; [reflexivity|]. cbn [world files trace].
    rewrite decide_True by done.
    split; [done|]. split.
    + intros q Hq. by rewrite !decide_False by done.
    + rewrite !List.filter_app. simpl. by rewrite !app_nil_r.
Qed.

(** Once the markers are in the file, further runs only print. *)
Lemma repeat_skip n : forall st c,
  rcTarget env (world st) = Some rc ->
  files (world st) rc = Some c -> hasKeychainLoader c = true ->
  repeat_stage n (setupRcFile env cfg) st
  = (Ret tt, {| world := world st;
                trace := trace st ++ replicate n (Print (MsgRcSkip rc)) |}).
Proof using Hread.
  induction n as [|n IH]; intros st c Ht Hf Hc.
  - simpl. unfold ret. rewrite app_nil_r. by destruct st.
  - cbn [repeat_stage].
    rewrite (bind_run _ _ _ _ _ (setupRcFile_skip st c Ht Hf Hc)).
    rewrite (IH _ c) by done. simpl. by rewrite <- app_assoc.
Qed.

End RcStage.

Lemma rcTarget_stable env w w' rc :
  rcTarget env w = Some rc ->
  (forall q, q <> rc -> files w' q = files w q) ->
  is_Some (files w' rc) ->
  rcTarget env w' = Some rc.
Proof.
  unfold rcTarget. intros Ht Hother Hsome.
  destruct (streq (basename (default [] (env_SHELL env))) (lit "zsh")); [done|].
  destruct (streq (basename (default [] (env_SHELL env))) (lit "bash"));
    [|done].
  destruct (decide (rc = Bashrc)) as [->|Hne].
  - by rewrite bool_decide_eq_true_2.
  - by rewrite (Hother Bashrc) by done.
Qed.

Lemma filter_append_skips n rc :
  List.filter is_append (replicate n (Print (MsgRcSkip rc))) = [].
Proof. induction n; simpl; done. Qed.

(** C3, as stated, fails: a file that mentions both markers without
    holding the loader is taken as already set up, so however often the
    updater runs the loader block never gets into it. *)
Lemma loader_not_always_once :
  hasKeychainLoader rc_mentions_markers = true
  /\ run (repeat_stage 3 (setupRcFile env_mac cfg_acme))
         (world_with Zshrc rc_mentions_markers)
     = (Ret tt, {| world := world_with Zshrc rc_mentions_markers;
                   trace := [Print (MsgRcSkip Zshrc); Print (MsgRcSkip Zshrc);
                             Print (MsgRcSkip Zshrc)] |})
  /\ occurrences loader rc_mentions_markers = 0%nat.
Proof. repeat split; vm_compute; reflexivity. Qed.

(** C3, amended: outside dry-run, for a recognised shell and a writable rc
    file, any number n >= 1 of runs in succession behaves as follows.  If
    the content already contains both marker substrings, no run writes
    anything and the file system stays as it was.  Otherwise the first run
    appends the loader snippet to the end of the content (the empty content
    for a missing file), that is the only append of the whole sequence, and
    the resulting file contains the loader block exactly once.  No other
    file changes in either case. *)
Theorem shell_profile_idempotent
    (env : Env) (cfg : Config) (w : World) (rc : Path) (n : nat) :
  dryRun cfg = false -> rcTarget env w = Some rc ->
  write_ok env rc = true -> read_ok env rc = true ->
  home_exists w = true \/ mkdir_ok env = true ->
  exists st',
    run (repeat_stage (S n) (setupRcFile env cfg)) w = (Ret tt, st')
    /\ (forall q, q <> rc -> files (world st') q = files w q)
    /\ (hasKeychainLoader (default [] (files w rc)) = true ->
        world st' = w /\ Forall (fun e => is_write e = false) (trace st'))
    /\ (hasKeychainLoader (default [] (files w rc)) = false ->
        files (world st') rc = Some (default [] (files w rc) ++ loader)
        /\ occurrences loader (default [] (files w rc) ++ loader) = 1%nat
        /\ List.filter is_append (trace st') = [AppendFile rc loader]).
Proof.
  intros Hdry Ht Hwrite Hread Hhome. unfold run. cbn [repeat_stage].
  set (st0 := {| world := w; trace := [] |}).
  destruct (hasKeychainLoader (default [] (files w rc))) eqn:Hhas.
  - (* already set up *)
    destruct (files w rc) as [c|] eqn:Hf; [|discriminate]. simpl in Hhas.
    rewrite (bind_run _ _ _ _ _ (setupRcFile_skip env cfg rc Hread st0 c Ht Hf Hhas)).
    rewrite (repeat_skip env cfg rc Hread n _ c) by done.
    eexists. split; [reflexivity|]. simpl. split; [done|]. split; [|done].
    intros _. split; [done|]. constructor; [done|].
    apply Forall_forall. intros e He.
    by apply elem_of_replicate in He as [-> _].
  - destruct (files w rc) as [c|] eqn:Hf; simpl in Hhas.
    + (* the file exists without the markers *)
      rewrite (bind_run _ _ _ _ _
                 (setupRcFile_append env cfg rc Hdry Hwrite Hread st0 c Ht Hf Hhas)).
      rewrite (repeat_skip env cfg rc Hread n _ (c ++ loader)).
      * eexists. split; [reflexivity|]. cbn [world trace files set_file].
        split; [intros q Hq; by rewrite decide_False|].
        split; [done|]. intros _. rewrite decide_True by done.
        split; [done|]. split; [by apply loader_once|].
        rewrite List.filter_app, filter_append_skips. reflexivity.
      * eapply rcTarget_stable; [exact Ht | |].
        -- intros q Hq. cbn [world files set_file]. by rewrite decide_False.
        -- cbn [world files set_file]. rewrite decide_True by done. eauto.
      * cbn [world files set_file]. by rewrite decide_True.
      * apply hasKeychainLoader_appended.
    + (* the file is missing *)
      destruct (setupRcFile_create env cfg rc Hdry Hwrite Hread st0 Ht Hf Hhome)
        as (st1 & Hrun & Hf1 & Hother & Happ).
      rewrite (bind_run _ _ _ _ _ Hrun).
      rewrite (repeat_skip env cfg rc Hread n _ loader).
      * eexists. split; [reflexivity|]. cbn [world trace].
        split; [done|]. split; [done|]. intros _.
        split; [done|]. split; [by apply (loader_once [])|].
        rewrite List.filter_app, filter_append_skips, Happ. reflexivity.
      * eapply rcTarget_stable; [exact Ht | done | rewrite Hf1; eauto].
      * done.
      * apply (hasKeychainLoader_appended []).
Qed.

Lemma shell_profile_idempotent_witness :
  exists st',
    run (repeat_stage 2 (setupRcFile env_mac cfg_acme))
        (world_with Zshrc (lit "export EDITOR=vi" ++ [NL]))
    = (Ret tt, st')
    /\ files (world st') Zshrc
       = Some ((lit "export EDITOR=vi" ++ [NL]) ++ loader).
Proof.
  destruct (shell_profile_idempotent env_mac cfg_acme
              (world_with Zshrc (lit "export EDITOR=vi" ++ [NL])) Zshrc 1
              eq_refl eq_refl eq_refl eq_refl (or_introl eq_refl))
    as (st' & Hrun & _ & _ & Happ).
  exists st'. split; [exact Hrun|].
  apply Happ. vm_compute. reflexivity.
Defined.

(** ** Long flags that are given *)

Section FlagGiven.
Variable key : jsstring.
Hypothesis Hkey_eq : 61 ∉ key.
Hypothesis Hkey_proto : key <> lit "__proto__".

Lemma dashes_drop a : startsWith a (lit "--") = true -> a = lit "--" ++ drop 2 a.
Proof. intros [t ->]%startsWith_true. reflexivity. Qed.

Lemma flag_not_eq_form a :
  startsWith a (lit "--") = true -> includes a [61] = true -> a <> lit "--" ++ key.
Proof using Hkey_eq.
  intros _ Hinc ->. rewrite includes_dashes in Hinc.
  by apply includes_char in Hinc.
Qed.

(** An [--k=v] argument assigns [key] only if it starts with [--key=]. *)
Lemma assign_eq_form_keeps out a :
  startsWith a (lit "--") = true -> includes a [61] = true ->
  startsWith a (lit "--" ++ key ++ [61]) = false ->
  assign_eq_form out a !! key = out !! key.
Proof using Hkey_eq Hkey_proto.
  intros Hd Hinc Hpre. unfold assign_eq_form.
  pose proof (join_split 61 (drop 2 a)) as Hjoin.
  destruct (split 61 (drop 2 a)) as [|k rest] eqn:E; [done|].
  apply lookup_set_prop_ne. intros ->.
  rewrite (dashes_drop a Hd) in Hinc, Hpre. rewrite includes_dashes in Hinc.
  destruct rest as [|r rest].
  - simpl in Hjoin. apply includes_char in Hinc.
    pose proof (split_pieces 61 (drop 2 a)) as Hp. rewrite E in Hp.
    inversion Hp; subst. congruence.
  - change (join [61] (key :: r :: rest))
      with (key ++ [61] ++ join [61] (r :: rest)) in Hjoin.
    rewrite <- Hjoin in Hpre.
    assert (Hsw : startsWith (lit "--" ++ key ++ [61] ++ join [61] (r :: rest))
                    (lit "--" ++ key ++ [61]) = true).
    { apply startsWith_true. exists (join [61] (r :: rest)).
      by rewrite <- !app_assoc. }
    congruence.
Qed.

Lemma parse_loop_flag_truthy_le n : forall raw out,
  (length raw <= n)%nat ->
  (forall a, a ∈ raw -> startsWith a (lit "--" ++ key ++ [61]) = false) ->
  lit "--" ++ key ∈ raw \/ truthy (out !! key) = true ->
  truthy (parse_loop raw out !! key) = true.
Proof using Hkey_eq Hkey_proto.
  induction n as [|n IH]; intros raw out Hlen Hno Hgiven.
  - destruct raw; [|simpl in Hlen; lia].
    destruct Hgiven as [Hin|]; [|done]. by apply elem_of_nil in Hin.
  - destruct raw as [|a raw'].
    { destruct Hgiven as [Hin|]; [|done]. by apply elem_of_nil in Hin. }
    simpl in Hlen.
    assert (Hno' : forall b, b ∈ raw' -> startsWith b (lit "--" ++ key ++ [61]) = false).
    { intros b Hb. apply Hno. by right. }
    destruct (startsWith a (lit "--")) eqn:Hd.
    + destruct (includes a [61]) eqn:Hinc.
      * rewrite parse_loop_eq_form by done. apply IH; [lia | done |].
        rewrite assign_eq_form_keeps by (done || apply Hno; left).
        destruct Hgiven as [Hin|]; [|by right].
        apply elem_of_cons in Hin as [Heq|]; [|by left].
        by destruct (flag_not_eq_form a Hd Hinc).
      * destruct (decide (drop 2 a = key)) as [Hk|Hk].
        -- (* this argument sets the key *)
           destruct raw' as [|next raw''].
           { rewrite parse_loop_last by done.
             by rewrite Hk, lookup_set_prop_eq. }
           destruct next as [|c next'].
           { rewrite parse_loop_bare by (done || by left).
             apply IH; [simpl in Hlen |- *; lia | done |]. right.
             by rewrite Hk, lookup_set_prop_eq. }
           destruct (startsWith (c :: next') (lit "--")) eqn:Hn.
           ++ rewrite parse_loop_bare by (done || by right).
              apply IH; [simpl in Hlen |- *; lia | done |]. right.
              by rewrite Hk, lookup_set_prop_eq.
           ++ rewrite parse_loop_value by done.
              apply IH; [simpl in Hlen; lia | |].
              ** intros b Hb. apply Hno'. by right.
              ** right. by rewrite Hk, lookup_set_prop_eq.
        -- (* it sets another key *)
           assert (Ha : a <> lit "--" ++ key).
           { intros ->. by apply Hk. }
           assert (Hgiven' : lit "--" ++ key ∈ raw' \/ truthy (out !! key) = true).
           { destruct Hgiven as [Hin|]; [|by right].
             apply elem_of_cons in Hin as [Heq|]; [congruence | by left]. }
           destruct raw' as [|next raw''].
           { rewrite parse_loop_last by done.
             rewrite lookup_set_prop_ne by done.
             destruct Hgiven' as [Hin|]; [|done]. by apply elem_of_nil in Hin. }
           destruct next as [|c next'].
           { rewrite parse_loop_bare by (done || by left).
             apply IH; [simpl in Hlen |- *; lia | done |].
             rewrite lookup_set_prop_ne by done. done. }
           destruct (startsWith (c :: next') (lit "--")) eqn:Hn.
           ++ rewrite parse_loop_bare by (done || by right).
              apply IH; [simpl in Hlen |- *; lia | done |].
              by rewrite lookup_set_prop_ne.
           ++ rewrite parse_loop_value by done.
              apply IH; [simpl in Hlen; lia | |].
              ** intros b Hb. apply Hno'. by right.
              ** rewrite lookup_set_prop_ne by done.
                 destruct Hgiven' as [Hin|]; [|by right].
                 apply elem_of_cons in Hin as [Heq|]; [|by left].
                 rewrite <- Heq in Hn.
                 by rewrite startsWith_app in Hn.
    + rewrite parse_loop_skip by done. apply IH; [lia | done |].
      destruct Hgiven as [Hin|]; [|by right].
      apply elem_of_cons in Hin as [Heq|]; [|by left].
      rewrite <- Heq in Hd. by rewrite startsWith_app in Hd.
Qed.

(** An argument that assigns [key] is [--key] or starts with [--key=]. *)
Lemma flag_key_names a :
  flag_key a = Some key ->
  a = lit "--" ++ key \/ startsWith a (lit "--" ++ key ++ [61]) = true.
Proof using Hkey_eq.
  unfold flag_key. destruct (startsWith a (lit "--")) eqn:Hd; [|discriminate].
  destruct (includes a [61]) eqn:Hi.
  - intros Hhead. right.
    pose proof (join_split 61 (drop 2 a)) as Hjoin.
    rewrite (dashes_drop a Hd) in Hi. rewrite includes_dashes in Hi.
    destruct (split 61 (drop 2 a)) as [|k rest]; [discriminate|].
    injection Hhead as Hk. rewrite Hk in Hjoin.
    destruct rest as [|r rest].
    + simpl in Hjoin. rewrite <- Hjoin in Hi. apply includes_char in Hi. done.
    + change (join [61] (key :: r :: rest))
        with (key ++ [61] ++ join [61] (r :: rest)) in Hjoin.
      rewrite (dashes_drop a Hd), <- Hjoin.
      apply startsWith_true. exists (join [61] (r :: rest)).
      by rewrite <- !app_assoc.
  - intros [= Hk]. left. by rewrite (dashes_drop a Hd), Hk.
Qed.

(** A long flag that appears among the arguments, and is nowhere given in
    the [--key=...] form, ends up truthy. *)
Lemma flag_given_truthy words :
  lit "--" ++ key ∈ words ->
  (forall a, a ∈ words -> startsWith a (lit "--" ++ key ++ [61]) = false) ->
  truthy (parseArgs (argv_of words) !! key) = true.
Proof using Hkey_eq Hkey_proto.
  intros Hin Hno. unfold parseArgs, argv_of. cbn [drop].
  apply (parse_loop_flag_truthy_le (length words)); auto.
Qed.

End FlagGiven.

(** C7, as stated, fails.  The argument [-h] does not start with two
    dashes, so the parser skips it, the help check sees nothing and the
    whole flow runs, Keychain write included.  Off macOS the platform guard
    stops the script with exit code 1 before the arguments are parsed.  And
    a later [--help=] resets the flag to the empty string. *)
Lemma help_not_always :
  parseArgs (argv_of [lit "-h"]) = ∅
  /\ fst (run (script env_mac (argv_of [lit "-h"])) world_empty) = Ret tt
  /\ (Print MsgUsage
       ∉ trace (snd (run (script env_mac (argv_of [lit "-h"])) world_empty)))
  /\ (KeychainAdd (lit "ghp")
       ∈ trace (snd (run (script env_mac (argv_of [lit "-h"])) world_empty)))
  /\ run (script env_linux (argv_of [lit "--help"])) world_empty
     = (Exit 1, {| world := world_empty; trace := [PrintErr MsgMacOnly] |})
  /\ help_requested (parseArgs (argv_of [lit "--help"; lit "--help="])) = false.
Proof.
  split; [reflexivity|]. split; [vm_compute; reflexivity|].
  split; [|split; [|split]].
  - apply (bool_decide_eq_false_1 _). vm_compute. reflexivity.
  - apply (bool_decide_eq_true_1 _). vm_compute. reflexivity.
  - vm_compute. reflexivity.
  - vm_compute. reflexivity.
Qed.

(** ** The argument that decides a flag *)

Lemma last_filter_split {A} (P : A -> bool) (l : list A) a :
  last (List.filter P l) = Some a ->
  exists pre post,
    l = pre ++ a :: post /\ P a = true /\ forall b, b ∈ post -> P b = false.
Proof.
  induction l as [|x l IH] using rev_ind; [done|].
  rewrite List.filter_app. simpl. destruct (P x) eqn:Hx.
  - rewrite last_snoc. intros [= ->]. exists l, [].
    split; [done|]. split; [done|]. intros b Hb. by apply elem_of_nil in Hb.
  - rewrite app_nil_r. intros Hl.
    destruct (IH Hl) as (pre & post & -> & Ha & Hpost).
    exists pre, (post ++ [x]). split; [by rewrite <- app_assoc|].
    split; [done|]. intros b Hb.
    apply elem_of_app in Hb as [Hb|Hb]; [by apply Hpost|].
    by apply list_elem_of_singleton in Hb as ->.
Qed.

Section LastAssigner.
Variable key : jsstring.
Hypothesis Hkey_eq : 61 ∉ key.
Hypothesis Hkey_proto : key <> lit "__proto__".

Lemma key_not_eq_form : includes (lit "--" ++ key) [61] = false.
Proof using Hkey_eq.
  rewrite includes_dashes. destruct (includes key [61]) eqn:E; [|done].
  by apply includes_char in E.
Qed.

(** The argument that assigns [key] last decides whether the key ends up
    truthy: it does unless that argument is [--key=], with nothing after
    the equals sign. *)
Lemma last_assigner_truthy pre a post out :
  flag_key a = Some key ->
  (forall b, b ∈ post -> flag_key b <> Some key) ->
  truthy (parse_loop (pre ++ a :: post) out !! key)
  = negb (streq a (lit "--" ++ key ++ [61])).
Proof using Hkey_eq Hkey_proto.
  intros Ha Hpost.
  assert (Hd : startsWith a (lit "--") = true).
  { unfold flag_key in Ha. by destruct (startsWith a (lit "--")). }
  rewrite parse_loop_app_flag by done.
  destruct (flag_key_names key Hkey_eq a Ha) as [-> | Hsw].
  - assert (Hne : streq (lit "--" ++ key) (lit "--" ++ key ++ [61]) = false).
    { apply bool_decide_eq_false_2. intros Heq.
      apply (f_equal length) in Heq. rewrite !length_app in Heq.
      simpl in Heq. lia. }
    rewrite Hne. cbn [negb].
    change (drop 2 (lit "--" ++ key)) with key in *.
    destruct post as [|next r].
    + rewrite parse_loop_last by (done || apply key_not_eq_form).
      change (drop 2 (lit "--" ++ key)) with key.
      by rewrite lookup_set_prop_eq.
    + destruct next as [|c next'].
      { rewrite parse_loop_bare by (done || apply key_not_eq_form || by left).
        rewrite parse_loop_preserve by done.
        change (drop 2 (lit "--" ++ key)) with key.
        by rewrite lookup_set_prop_eq. }
      destruct (startsWith (c :: next') (lit "--")) eqn:Hn.
      * rewrite parse_loop_bare by (done || apply key_not_eq_form || by right).
        rewrite parse_loop_preserve by done.
        change (drop 2 (lit "--" ++ key)) with key.
        by rewrite lookup_set_prop_eq.
      * rewrite parse_loop_value by (done || apply key_not_eq_form).
        rewrite parse_loop_preserve
          by (intros b Hb; apply Hpost; by apply list_elem_of_further).
        change (drop 2 (lit "--" ++ key)) with key.
        by rewrite lookup_set_prop_eq.
  - apply startsWith_true in Hsw as [v ->].
    rewrite <- !app_assoc.
    rewrite parse_loop_eq_form
      by (apply startsWith_app || apply includes_eq_form).
    rewrite parse_loop_preserve by done.
    unfold assign_eq_form.
    change (drop 2 (lit "--" ++ key ++ [61] ++ v)) with (key ++ 61 :: v).
    rewrite split_app_sep by done. rewrite join_split.
    rewrite lookup_set_prop_eq by done. cbn [truthy]. f_equal.
    unfold streq. destruct v as [|c v]; cbn [is_empty].
    + symmetry. apply bool_decide_eq_true_2. by rewrite app_nil_r.
    + symmetry. apply bool_decide_eq_false_2. intros Heq.
      apply (f_equal length) in Heq. rewrite !length_app in Heq.
      simpl in Heq. lia.
Qed.

Lemma flag_truthy_iff words :
  truthy (parseArgs (argv_of words) !! key) = true
  <-> exists a, last (assigners key words) = Some a
                /\ a <> lit "--" ++ key ++ [61].
Proof using Hkey_eq Hkey_proto.
  unfold parseArgs, argv_of. cbn [drop]. rewrite drop_0.
  destruct (last (assigners key words)) as [a|] eqn:Hl.
  - apply last_filter_split in Hl as (pre & post & -> & Ha & Hpost).
    apply bool_decide_eq_true in Ha.
    rewrite last_assigner_truthy; [|done|].
    + unfold streq. split.
      * intros Hn. exists a. split; [done|]. intros ->.
        by rewrite bool_decide_eq_true_2 in Hn.
      * intros (b & [= <-] & Hne). by rewrite bool_decide_eq_false_2.
    + intros b Hb. by apply (bool_decide_eq_false_1 _), Hpost.
  - apply last_None in Hl. rewrite parse_loop_preserve.
    + rewrite lookup_empty. split; [done | by intros (a & [=] & _)].
    + intros a Ha Hk.
      assert (Hin : a ∈ assigners key words).
      { apply list_elem_of_In, filter_In. split; [by apply list_elem_of_In|].
        by apply bool_decide_eq_true_2. }
      rewrite Hl in Hin. by apply elem_of_nil in Hin.
Qed.

End LastAssigner.

(** C7, amended: on macOS, an argument vector that contains [--help] makes
    the script print the usage line and exit with code 0, and that is all
    it does (no token acquisition, no Keychain or file write, no
    verification), unless the last argument that names the help flag is
    [--help=] with nothing after the equals sign: that one stores the
    empty string, which does not count as the flag being given. *)
Theorem help_short_circuit (env : Env) (words : list jsstring) (w : World) :
  platform env = lit "darwin" ->
  lit "--help" ∈ words ->
  (last (assigners (lit "help") words) <> Some (lit "--help=") ->
   run (script env (argv_of words)) w
   = (Exit 0, {| world := w; trace := [Print MsgUsage] |}))
  /\ (last (assigners (lit "help") words) = Some (lit "--help=") ->
      parseArgs (argv_of words) !! lit "help" = Some (VStr [])).
Proof.
  intros Hplat Hin.
  assert (Hk : 61 ∉ lit "help")
    by (apply (bool_decide_eq_false_1 _); vm_compute; reflexivity).
  assert (Hp : lit "help" <> lit "__proto__") by discriminate.
  split.
  - intros Hlast. unfold run, script. rewrite Hplat.
    change (streq (lit "darwin") (lit "darwin")) with true. cbn [negb].
    assert (Hhelp : help_requested (parseArgs (argv_of words)) = true).
    { unfold help_requested. apply orb_true_iff. left.
      apply (flag_truthy_iff (lit "help") Hk Hp).
      destruct (last (assigners (lit "help") words)) as [a|] eqn:Hl.
      - exists a. split; [done|]. intros ->. by apply Hlast.
      - apply last_None in Hl.
        assert (Hmem : lit "--help" ∈ assigners (lit "help") words).
        { apply list_elem_of_In, filter_In.
          split; [by apply list_elem_of_In | reflexivity]. }
        rewrite Hl in Hmem. by apply elem_of_nil in Hmem. }
    rewrite Hhelp. reflexivity.
  - intros Hlast.
    apply last_filter_split in Hlast as (pre & post & -> & _ & Hpost).
    unfold parseArgs, argv_of. cbn [drop]. rewrite drop_0.
    rewrite parse_loop_app_flag by reflexivity.
    rewrite parse_loop_eq_form by reflexivity.
    rewrite parse_loop_preserve.
    + apply (lookup_set_prop_eq _ (lit "help")). discriminate.
    + intros b Hb. by apply (bool_decide_eq_false_1 _), Hpost.
Qed.

Lemma help_short_circuit_witness :
  run (script env_mac (argv_of [lit "--org"; lit "acme"; lit "--help";
                                lit "--help=yes"]))
      world_empty
  = (Exit 0, {| world := world_empty; trace := [Print MsgUsage] |}).
Proof.
  refine (proj1 (help_short_circuit env_mac
                   [lit "--org"; lit "acme"; lit "--help"; lit "--help=yes"]
                   world_empty _ _) _).
  - reflexivity.
  - apply (bool_decide_eq_true_1 _). vm_compute. reflexivity.
  - vm_compute. discriminate.
Defined.

(** The same for [--dry-run]: the flag is set whenever it appears among
    the arguments and is nowhere given in the [--dry-run=...] form. *)
Lemma dry_run_flag_given (words : list jsstring) :
  lit "--dry-run" ∈ words ->
  (forall a, a ∈ words -> startsWith a (lit "--dry-run=") = false) ->
  dryRun (config_of (parseArgs (argv_of words))) = true.
Proof.
  intros Hin Hno. unfold config_of. cbn [dryRun].
  apply (flag_given_truthy (lit "dry-run")); try done.
  apply (bool_decide_eq_false_1 _). vm_compute. reflexivity.
Qed.

(** ** The hidden prompt *)

Section HiddenInput.
Variable env : Env.

Lemma plain_chunk_tests ch :
  plain_chunk ch ->
  streq ch [13] || streq ch [10] = false /\ streq ch [3] = false.
Proof.
  intros (H1 & H2 & H3). unfold streq.
  by rewrite !bool_decide_eq_false_2.
Qed.

Lemma onData_plain chunks : forall rest buf st,
  Forall plain_chunk chunks ->
  onData (chunks ++ rest) buf st = onData rest (buf ++ concat chunks) st.
Proof.
  induction chunks as [|ch chunks IH]; intros rest buf st Hall.
  - simpl. by rewrite app_nil_r.
  - inversion Hall as [|? ? Hch Hrest]; subst.
    destruct (plain_chunk_tests ch Hch) as [He Hc].
    rewrite <- app_comm_cons. cbn [onData]. rewrite He, Hc.
    rewrite IH by done. simpl. by rewrite <- app_assoc.
Qed.

End HiddenInput.

(** X1: on a terminal, the hidden prompt returns exactly what was typed
    before the first Enter (carriage return or line feed), chunk after
    chunk, and ignores whatever follows; nothing is echoed but the final
    line break. *)
Theorem readHidden_returns_typed
    (env : Env) (chunks rest : list jsstring) (e : jsstring) (st : State) :
  stdin_isTTY env = true ->
  keystrokes env = chunks ++ e :: rest ->
  e = [13] \/ e = [10] ->
  Forall plain_chunk chunks ->
  readHidden env st
  = (Ret (concat chunks),
     {| world := world st;
        trace := trace st ++ [Print MsgHiddenWarning; Print MsgHiddenPrompt;
                              RawInput; Print MsgNewline] |}).
Proof.
  intros Htty Hk He Hall. unfold readHidden. rewrite Htty.
  cbv [mbind M_bind bind log emit]. cbn [world trace]. rewrite Hk.
  rewrite onData_plain by done. cbn [onData].
  assert (Hent : streq e [13] || streq e [10] = true).
  { destruct He as [-> | ->]; reflexivity. }
  rewrite Hent. cbv [mbind M_bind bind log emit ret]. cbn [world trace app].
  by rewrite <- !app_assoc.
Qed.

Lemma readHidden_returns_typed_witness :
  readHidden env_mac {| world := world_empty; trace := [] |}
  = (Ret (lit "ghp"),
     {| world := world_empty;
        trace := [Print MsgHiddenWarning; Print MsgHiddenPrompt;
                  RawInput; Print MsgNewline] |}).
Proof.
  apply (readHidden_returns_typed env_mac [lit "g"; lit "h"; lit "p"] [] [13]).
  - reflexivity.
  - reflexivity.
  - by left.
  - repeat constructor; discriminate.
Defined.

(** X2: on a terminal, Ctrl-C typed before any Enter aborts the whole
    process with exit code 1, whatever was typed before it; and if the
    input ends without Enter or Ctrl-C the prompt never returns.  When
    stdin is not a terminal the prompt cannot switch it to raw mode: it
    ends with a TypeError right after the two prompt lines, and nothing is
    read. *)
Theorem readHidden_aborted
    (env : Env) (chunks : list jsstring) (st : State) :
  Forall plain_chunk chunks ->
  (stdin_isTTY env = true ->
   forall rest, keystrokes env = chunks ++ [3] :: rest ->
     readHidden env st
     = (Exit 1,
        {| world := world st;
           trace := trace st ++ [Print MsgHiddenWarning; Print MsgHiddenPrompt;
                                 RawInput; Print MsgNewline;
                                 PrintErr MsgInputInterrupted] |}))
  /\ (stdin_isTTY env = true -> keystrokes env = chunks ->
      fst (readHidden env st) = Pending)
  /\ (stdin_isTTY env = false ->
      readHidden env st
      = (Throw TypeError,
         {| world := world st;
            trace := trace st ++ [Print MsgHiddenWarning;
                                  Print MsgHiddenPrompt] |})).
Proof.
  intros Hall. split; [|split].
  - intros Htty rest Hk. unfold readHidden. rewrite Htty.
    cbv [mbind M_bind bind log emit]. cbn [world trace]. rewrite Hk.
    rewrite onData_plain by done. cbn [onData].
    change (streq [3] [13] || streq [3] [10]) with false.
    change (streq [3] [3]) with true.
    cbv [mbind M_bind bind log log_err fatal emit exit]. cbn [world trace app].
    by rewrite <- !app_assoc.
  - intros Htty Hk. unfold readHidden. rewrite Htty.
    cbv [mbind M_bind bind log emit]. cbn [world trace]. rewrite Hk.
    rewrite <- (app_nil_r chunks). rewrite onData_plain by done. reflexivity.
  - intros Htty. unfold readHidden. rewrite Htty.
    cbv [mbind M_bind bind log emit throw]. cbn [world trace].
    by rewrite <- !app_assoc.
Qed.

Lemma readHidden_aborted_witness :
  readHidden env_interrupts {| world := world_empty; trace := [] |}
  = (Exit 1,
     {| world := world_empty;
        trace := [Print MsgHiddenWarning; Print MsgHiddenPrompt; RawInput;
                  Print MsgNewline; PrintErr MsgInputInterrupted] |}).
Proof.
  refine (proj1 (readHidden_aborted env_interrupts [lit "g"]
                   {| world := world_empty; trace := [] |} _) _ [lit "x"] _).
  - repeat constructor; discriminate.
  - reflexivity.
  - reflexivity.
Defined.

(** ** The main flow up to the first file *)

Section BeforeFiles.
Variable env : Env.
Variable cfg : Config.

Lemma not_write_getToken : only not_write (getToken env cfg).
Proof.
  unfold getToken.
  apply only_bind; [|intros token; repeat only_step].
  destruct (truthy (Some (tokenArg cfg))); [repeat only_step|].
  destruct (dryRun cfg); [repeat only_step|].
  apply only_bind; [apply not_write_readHidden | intros s; by apply only_ret].
Qed.

Lemma confirmPrompt_run st :
  confirmPrompt env st
  = (Ret (said_yes (answer env)),
     {| world := world st; trace := trace st ++ [Question] |}).
Proof. reflexivity. Qed.

(** Token acquisition followed by the confirmation prompt. *)
Lemma main_after_confirm w token st1 :
  dryRun cfg = false ->
  run (getToken env cfg) w = (Ret token, st1) ->
  run (main env cfg) w
  = (if said_yes (answer env)
     then (saveTokenToKeychain env cfg token;; setupRcFile env cfg;;
           setupNpmrc env cfg;; checkNpmToken env;; validateNpm env cfg)
            {| world := world st1; trace := trace st1 ++ [Question] |}
     else (Exit 0, {| world := world st1;
                      trace := trace st1 ++ [Question; Print MsgCancelled] |})).
Proof.
  intros Hdry Hget. unfold run in *. unfold main.
  rewrite (bind_run _ _ _ _ _ Hget). rewrite Hdry. cbn [negb].
  cbv [mbind M_bind bind]. rewrite confirmPrompt_run.
  destruct (said_yes (answer env)); cbn [negb].
  - reflexivity.
  - cbv [log emit exit]. cbn [world trace]. by rewrite <- app_assoc.
Qed.

(** The Keychain write for an account and a token that are plain for the
    shell. *)
Lemma saveTokenToKeychain_plain token st :
  dryRun cfg = false ->
  sh_plain (USER env) = true -> sh_plain token = true ->
  saveTokenToKeychain env cfg token st
  = (if keychain_add_ok env then Ret tt else Exit 1,
     {| world := world st;
        trace := trace st
                 ++ [KeychainAdd token;
                     if keychain_add_ok env then Print MsgKeychainSaved
                     else PrintErr MsgKeychainSaveFailed] |}).
Proof.
  intros Hdry Hu Ht. unfold saveTokenToKeychain, execSync_add.
  rewrite Hdry, Hu, Ht. cbn [andb].
  cbv [try_catch mbind M_bind bind emit log log_err fatal ret throw exit].
  cbn [world trace].
  destruct (keychain_add_ok env); cbn [world trace]; by rewrite <- !app_assoc.
Qed.

(** The same write when the shell expands the command line and reports a
    failure. *)
Lemma saveTokenToKeychain_shell_fails token st w' :
  dryRun cfg = false ->
  sh_plain (USER env) && sh_plain token = false ->
  sh env (addCommand (USER env) token) (world st) = (None, w') ->
  saveTokenToKeychain env cfg token st
  = (Exit 1,
     {| world := w';
        trace := trace st
                 ++ [ShellExec (addCommand (USER env) token);
                     PrintErr MsgKeychainSaveFailed] |}).
Proof.
  intros Hdry Hp Hsh. unfold saveTokenToKeychain, execSync_add, sh_exec.
  rewrite Hdry, Hp.
  cbv [try_catch mbind M_bind bind emit log log_err fatal ret throw exit].
  cbn [world trace]. rewrite Hsh. cbn [world trace].
  by rewrite <- !app_assoc.
Qed.

Lemma getToken_world w token st1 :
  run (getToken env cfg) w = (Ret token, st1) ->
  world st1 = w /\ Forall (fun e => is_write e = false) (trace st1).
Proof.
  intros Hget. destruct (not_write_getToken _ _ _ Hget) as (Hw & evs & Ht & Hall).
  simpl in *. split; [done|]. rewrite Ht.
  eapply Forall_impl; [exact Hall|]. intros e He. unfold not_write in He.
  by destruct (is_write e).
Qed.

End BeforeFiles.

(** X3: outside dry-run, once a token has been obtained, any answer to the
    confirmation prompt other than [y] or [yes] (after trimming, in any
    letter case), the empty answer included, ends the process with exit
    code 0; no file and no Keychain entry has been touched. *)
Theorem decline_no_side_effects
    (env : Env) (cfg : Config) (w : World) (token : jsstring) (st1 : State) :
  dryRun cfg = false ->
  run (getToken env cfg) w = (Ret token, st1) ->
  said_yes (answer env) = false ->
  run (main env cfg) w
  = (Exit 0, {| world := w;
                trace := trace st1 ++ [Question; Print MsgCancelled] |})
  /\ Forall (fun e => is_write e = false)
       (trace st1 ++ [Question; Print MsgCancelled]).
Proof.
  intros Hdry Hget Hno.
  destruct (getToken_world env cfg w token st1 Hget) as [Hw Hall].
  rewrite (main_after_confirm env cfg w token st1 Hdry Hget), Hno, Hw.
  split; [done|]. apply Forall_app. split; [done|]. by repeat constructor.
Qed.

Lemma decline_no_side_effects_witness :
  run (main env_declines cfg_token) world_empty
  = (Exit 0, {| world := world_empty;
                trace := [Question; Print MsgCancelled] |}).
Proof.
  refine (proj1 (decline_no_side_effects env_declines cfg_token world_empty
                   (lit "abc123") {| world := world_empty; trace := [] |}
                   _ _ _)); reflexivity.
Defined.

(** X4: when the Keychain write fails, the process ends with exit code 1
    right after the attempt: the script reads and writes no rc file and no
    registry config file.  For an account name and a token that are plain
    for the shell the attempt is the Keychain command with that token, and
    every file is as it was; for any other token the command line goes to
    the shell as it is, and the files are as the shell left them. *)
Theorem keychain_failure_stops
    (env : Env) (cfg : Config) (w : World) (token : jsstring) (st1 : State) :
  dryRun cfg = false ->
  run (getToken env cfg) w = (Ret token, st1) ->
  said_yes (answer env) = true ->
  (sh_plain (USER env) = true -> sh_plain token = true ->
   keychain_add_ok env = false ->
   run (main env cfg) w
   = (Exit 1, {| world := w;
                 trace := trace st1 ++ [Question; KeychainAdd token;
                                        PrintErr MsgKeychainSaveFailed] |}))
  /\ (sh_plain (USER env) && sh_plain token = false ->
      forall w', sh env (addCommand (USER env) token) w = (None, w') ->
      run (main env cfg) w
      = (Exit 1,
         {| world := w';
            trace := trace st1
                     ++ [Question; ShellExec (addCommand (USER env) token);
                         PrintErr MsgKeychainSaveFailed] |})).
Proof.
  intros Hdry Hget Hyes.
  destruct (getToken_world env cfg w token st1 Hget) as [Hw _].
  rewrite (main_after_confirm env cfg w token st1 Hdry Hget), Hyes, Hw.
  split.
  - intros Hu Ht Hfail. cbv [mbind M_bind bind].
    rewrite saveTokenToKeychain_plain by done. rewrite Hfail.
    cbn [world trace]. by rewrite <- !app_assoc.
  - intros Hp w' Hsh. cbv [mbind M_bind bind].
    rewrite (saveTokenToKeychain_shell_fails env cfg token _ w') by done.
    cbn [world trace]. by rewrite <- !app_assoc.
Qed.

Lemma keychain_failure_stops_witness :
  run (main env_keychain_locked cfg_token) world_empty
  = (Exit 1, {| world := world_empty;
                trace := [Question; KeychainAdd (lit "abc123");
                          PrintErr MsgKeychainSaveFailed] |}).
Proof.
  apply (proj1 (keychain_failure_stops env_keychain_locked cfg_token
                  world_empty (lit "abc123")
                  {| world := world_empty; trace := [] |}
                  eq_refl eq_refl eq_refl));
    reflexivity.
Defined.

(** X5: with a shell that is neither zsh nor bash (or no SHELL at all) the
    shell profile stage prints a warning and ends the process with exit
    code 1 without touching a file, in dry-run too.  In the main flow
    outside dry-run the Keychain entry has been written by then (for an
    account name and a token that are plain for the shell). *)
Theorem unknown_shell_fatal
    (env : Env) (cfg : Config) (w : World) (token : jsstring) (st1 st : State) :
  streq (basename (default [] (env_SHELL env))) (lit "zsh") = false ->
  streq (basename (default [] (env_SHELL env))) (lit "bash") = false ->
  setupRcFile env cfg st
    = (Exit 1,
       {| world := world st;
          trace := trace st
                   ++ [PrintErr (MsgUnknownShell
                                   (basename (default [] (env_SHELL env))));
                       PrintErr MsgShellFatal] |})
  /\ (dryRun cfg = false ->
      run (getToken env cfg) w = (Ret token, st1) ->
      said_yes (answer env) = true ->
      sh_plain (USER env) = true -> sh_plain token = true ->
      keychain_add_ok env = true ->
      run (main env cfg) w
      = (Exit 1,
         {| world := w;
            trace := trace st1
                     ++ [Question; KeychainAdd token; Print MsgKeychainSaved;
                         PrintErr (MsgUnknownShell
                                     (basename (default [] (env_SHELL env))));
                         PrintErr MsgShellFatal] |})).
Proof.
  intros Hz Hb.
  assert (Hrc : forall st0, setupRcFile env cfg st0
    = (Exit 1,
       {| world := world st0;
          trace := trace st0
                   ++ [PrintErr (MsgUnknownShell
                                   (basename (default [] (env_SHELL env))));
                       PrintErr MsgShellFatal] |})).
  { intros st0. unfold setupRcFile, detectRcFile. rewrite Hz, Hb.
    cbv [mbind M_bind bind log_err emit ret fatal exit]. cbn [world trace].
    by rewrite <- app_assoc. }
  split; [apply Hrc|].
  intros Hdry Hget Hyes Hu Ht Hok.
  destruct (getToken_world env cfg w token st1 Hget) as [Hw _].
  rewrite (main_after_confirm env cfg w token st1 Hdry Hget), Hyes, Hw.
  cbv [mbind M_bind bind].
  rewrite saveTokenToKeychain_plain by done. rewrite Hok.
  rewrite Hrc. cbn [world trace]. by rewrite <- !app_assoc.
Qed.

Lemma unknown_shell_fatal_witness :
  setupRcFile env_fish cfg_token {| world := world_empty; trace := [] |}
  = (Exit 1,
     {| world := world_empty;
        trace := [PrintErr (MsgUnknownShell (lit "fish"));
                  PrintErr MsgShellFatal] |}).
Proof.
  refine (proj1 (unknown_shell_fatal env_fish cfg_token world_empty []
                   {| world := world_empty; trace := [] |}
                   {| world := world_empty; trace := [] |} _ _));
    reflexivity.
Defined.

(** ** What the file stages leave alone *)

(** Unfolds a stage down to the tests it makes. *)
Ltac run_all :=
  cbv [setupRcFile setupRcFile_v2 setupNpmrc detectRcFile try_catch mbind
       M_bind bind existsSync readFileSync writeFileSync appendFileSync
       mkdirSync_home accessSync_home get_world put_world emit log log_err
       ret throw exit fatal].

(** One case per outcome of the tests. *)
Ltac split_cases :=
  repeat first
    [ progress cbn [world trace files home_exists negb]
    | match goal with
      | |- context [match ?x with _ => _ end] =>
          match type of x with
          | bool => destruct x eqn:?
          | option _ => destruct x eqn:?
          end
      end ].

(** X6: whatever the shell, the flags, the state of the files and the
    outcome of each file-system call, the shell profile stage ends either
    normally or with exit code 1 (no exception escapes it), every file that
    existed before still exists with its old content as a prefix of the new
    one, and the registry config file is not touched. *)
Theorem setupRcFile_append_only
    (env : Env) (cfg : Config) (st : State) (r : Result unit) (st' : State) :
  setupRcFile env cfg st = (r, st') ->
  (r = Ret tt \/ r = Exit 1)
  /\ append_only (world st) (world st')
  /\ files (world st') Npmrc = files (world st) Npmrc.
Proof.
  run_all. split_cases.
  all: intros [= <- <-]; cbn [world files set_file].
  all: split; [tauto|].
  all: split; [intros qq cc Hqq|].
  all: try (exists []; rewrite app_nil_r; exact Hqq).
  all: try reflexivity.
  all: unfold set_file; cbn [files]; repeat case_decide; subst.
  all: try (exists []; rewrite app_nil_r; assumption).
  all: try done.
  all: rewrite Hqq in *; cbn [default from_option];
       first [ match goal with
               | H : negb (bool_decide (is_Some (Some _))) = true |- _ =>
                   rewrite bool_decide_eq_true_2 in H by eauto; discriminate
               end
             | eexists; reflexivity ].
Qed.

(** X7: the registry config stage, in every case, ends normally or with
    exit code 1 (no exception escapes it) and changes no file other than
    the registry config file; in dry-run it changes none at all. *)
Theorem setupNpmrc_frame
    (env : Env) (cfg : Config) (st : State) (r : Result unit) (st' : State) :
  setupNpmrc env cfg st = (r, st') ->
  (r = Ret tt \/ r = Exit 1)
  /\ (forall p, p <> Npmrc -> files (world st') p = files (world st) p)
  /\ home_exists (world st') = home_exists (world st)
  /\ (dryRun cfg = true -> world st' = world st).
Proof.
  run_all. split_cases.
  all: intros [= <- <-]; cbn [world files home_exists set_file].
  all: split; [tauto|].
  all: split; [intros qq Hqq; try reflexivity; by rewrite decide_False|].
  all: split; [reflexivity|].
  all: first [reflexivity | discriminate | done].
Qed.

Lemma setupRcFile_append_only_witness :
  append_only (world_with Zshrc (lit "export EDITOR=vi" ++ [NL]))
    (world (snd (setupRcFile env_mac cfg_acme
                   {| world := world_with Zshrc (lit "export EDITOR=vi" ++ [NL]);
                      trace := [] |}))).
Proof.
  refine (proj1 (proj2
    (setupRcFile_append_only env_mac cfg_acme
       {| world := world_with Zshrc (lit "export EDITOR=vi" ++ [NL]);
          trace := [] |}
       (fst (setupRcFile env_mac cfg_acme
               {| world := world_with Zshrc (lit "export EDITOR=vi" ++ [NL]);
                  trace := [] |}))
       _ _))).
  vm_compute. reflexivity.
Defined.

Lemma setupNpmrc_frame_witness :
  files (world (snd (setupNpmrc env_mac cfg_acme
                       {| world := world_with Zshrc (lit "export EDITOR=vi");
                          trace := [] |}))) Zshrc
  = files (world_with Zshrc (lit "export EDITOR=vi")) Zshrc.
Proof.
  refine (proj1 (proj2
    (setupNpmrc_frame env_mac cfg_acme
       {| world := world_with Zshrc (lit "export EDITOR=vi"); trace := [] |}
       (fst (setupNpmrc env_mac cfg_acme
               {| world := world_with Zshrc (lit "export EDITOR=vi");
                  trace := [] |}))
       _ _)) Zshrc _).
  - vm_compute. reflexivity.
  - discriminate.
Defined.

(** ** Repeated runs of the registry config stage *)

Section NpmrcAgain.
Variable env : Env.
Variable cfg : Config.
Hypothesis Hdry : dryRun cfg = false.
Hypothesis Hhome : home_writable env = true.
Hypothesis Hwrite : write_ok env Npmrc = true.
Hypothesis Hread : read_ok env Npmrc = true.
Hypothesis Horg : NL ∉ toString (org cfg).

Lemma elem_array_includes (l : list jsstring) x : x ∈ l -> array_includes l x = true.
Proof using Type.
  intros Hin. unfold array_includes. apply existsb_exists. exists x.
  split; [by apply list_elem_of_In | by apply bool_decide_eq_true_2].
Qed.

(** What the stage writes is a file it will skip next time. *)
Lemma written_is_configured kept :
  Forall (fun x => NL ∉ x) kept ->
  Forall (fun x => negb (is_blank x) = true) kept ->
  hasCorrectRegistry (org cfg) (join [NL] (kept ++ npmrcLines (org cfg)) ++ [NL])
  && hasCorrectAuthToken (join [NL] (kept ++ npmrcLines (org cfg)) ++ [NL])
  = true.
Proof using Horg.
  intros Hk Hb. unfold hasCorrectRegistry, hasCorrectAuthToken.
  rewrite existingLines_written by done.
  rewrite !elem_array_includes; [done | |]; rewrite elem_of_app; right.
  - right. left.
  - left.
Qed.

Lemma repeat_npmrc_skip n : forall st c,
  files (world st) Npmrc = Some c ->
  hasCorrectRegistry (org cfg) c && hasCorrectAuthToken c = true ->
  repeat_stage n (setupNpmrc env cfg) st
  = (Ret tt, {| world := world st;
                trace := trace st ++ replicate n (Print MsgNpmrcSkip) |}).
Proof using Hdry Hhome Hread.
  induction n as [|n IH]; intros st c Hf Hc.
  - simpl. unfold ret. rewrite app_nil_r. by destruct st.
  - cbn [repeat_stage].
    rewrite (bind_run _ _ _ _ _ (setupNpmrc_skip env cfg Hdry Hhome Hread st c Hf Hc)).
    rewrite (IH _ c) by done. simpl. by rewrite <- app_assoc.
Qed.

End NpmrcAgain.

(** X8: for an organization name without a line break and file-system
    calls that succeed, running the registry config stage any number of
    times in succession leaves the file the first run left: every later
    run finds both desired lines, reports the skip and writes nothing. *)
Theorem setupNpmrc_idempotent (env : Env) (cfg : Config) (w : World) (n : nat) :
  dryRun cfg = false -> home_writable env = true ->
  write_ok env Npmrc = true -> read_ok env Npmrc = true ->
  NL ∉ toString (org cfg) ->
  exists st1,
    run (setupNpmrc env cfg) w = (Ret tt, st1)
    /\ run (repeat_stage (S n) (setupNpmrc env cfg)) w
       = (Ret tt, {| world := world st1;
                     trace := trace st1 ++ replicate n (Print MsgNpmrcSkip) |}).
Proof.
  intros Hdry Hhome Hwrite Hread Horg. unfold run. cbn [repeat_stage].
  set (st0 := {| world := w; trace := [] |}).
  destruct (files w Npmrc) as [c|] eqn:Hf.
  - destruct (hasCorrectRegistry (org cfg) c && hasCorrectAuthToken c) eqn:Hc.
    + eexists. split; [by apply (setupNpmrc_skip env cfg Hdry Hhome Hread st0 c)|].
      rewrite (bind_run _ _ _ _ _
                 (setupNpmrc_skip env cfg Hdry Hhome Hread st0 c Hf Hc)).
      by apply (repeat_npmrc_skip env cfg Hdry Hhome Hread n _ c).
    + eexists.
      split; [by apply (setupNpmrc_merge env cfg Hdry Hhome Hwrite Hread st0 c)|].
      rewrite (bind_run _ _ _ _ _
                 (setupNpmrc_merge env cfg Hdry Hhome Hwrite Hread st0 c Hf Hc)).
      apply (repeat_npmrc_skip env cfg Hdry Hhome Hread n _
               (updatedContent (org cfg) c)).
      * cbn [world files set_file]. by rewrite decide_True.
      * rewrite updatedContent_unrelated.
        apply written_is_configured;
          [done | apply unrelated_no_NL | apply unrelated_not_blank].
  - eexists.
    split; [by apply (setupNpmrc_fresh env cfg Hdry Hhome Hwrite st0)|].
    rewrite (bind_run _ _ _ _ _
               (setupNpmrc_fresh env cfg Hdry Hhome Hwrite st0 Hf)).
    apply (repeat_npmrc_skip env cfg Hdry Hhome Hread n _
             (npmrcContent (org cfg))).
    + cbn [world files set_file]. by rewrite decide_True.
    + apply (written_is_configured cfg Horg []); constructor.
Qed.

Lemma setupNpmrc_idempotent_witness :
  exists st1,
    run (setupNpmrc env_mac cfg_acme) (world_with Npmrc npmrc_with_blank)
    = (Ret tt, st1)
    /\ run (repeat_stage 3 (setupNpmrc env_mac cfg_acme))
           (world_with Npmrc npmrc_with_blank)
       = (Ret tt, {| world := world st1;
                     trace := trace st1 ++ replicate 2 (Print MsgNpmrcSkip) |}).
Proof.
  apply (setupNpmrc_idempotent env_mac cfg_acme
           (world_with Npmrc npmrc_with_blank) 2); try reflexivity.
  apply (bool_decide_eq_false_1 _). vm_compute. reflexivity.
Defined.

(** ** The outcome of the verification *)

Lemma not_write_validateNpm env cfg :
  sh_plain (USER env) = true -> only not_write (validateNpm env cfg).
Proof.
  intros Hu. unfold validateNpm, getKeychainToken, execSync_find.
  rewrite Hu. repeat only_step.
Qed.

(** X9: outside dry-run (the account name being plain for the shell), when
    a secret was obtained, [npm whoami] is run with that secret (not with
    the token acquired earlier in the run), and the verification succeeds
    exactly when the command succeeds and prints something other than white
    space; on a blank output or a failed command the process ends with exit
    code 1.  The verifier itself writes nothing. *)
Theorem validateNpm_outcome (env : Env) (cfg : Config) (w : World) :
  dryRun cfg = false ->
  sh_plain (USER env) = true ->
  let secret := match keychain_find env with
                | Some out => trim out
                | None => default [] (env_NPM_TOKEN env)
                end in
  secret <> [] ->
  (fst (run (validateNpm env cfg) w) = Ret tt
   <-> exists out, npm_whoami env = NpmOk out /\ trim out <> [])
  /\ (fst (run (validateNpm env cfg) w) = Ret tt
      \/ fst (run (validateNpm env cfg) w) = Exit 1)
  /\ (NpmWhoami secret ∈ trace (snd (run (validateNpm env cfg) w)))
  /\ world (snd (run (validateNpm env cfg) w)) = w
  /\ Forall (fun e => is_write e = false)
       (trace (snd (run (validateNpm env cfg) w))).
Proof.
  intros Hdry Hu. cbv zeta.
  set (secret := match keychain_find env with
                 | Some out => trim out
                 | None => default [] (env_NPM_TOKEN env)
                 end).
  intros Hsecret.
  assert (Hpure : world (snd (run (validateNpm env cfg) w)) = w
                  /\ Forall (fun e => is_write e = false)
                       (trace (snd (run (validateNpm env cfg) w)))).
  { unfold run. destruct (validateNpm env cfg _) as [r st'] eqn:E.
    destruct (not_write_validateNpm env cfg Hu _ _ _ E) as (Hw & evs & Ht & Hall).
    simpl in *. split; [done|]. rewrite Ht.
    eapply Forall_impl; [exact Hall|]. intros e He. unfold not_write in He.
    by destruct (is_write e). }
  assert (Hget : getKeychainToken env {| world := w; trace := [] |}
                 = (Ret secret, {| world := w; trace := [KeychainFind] |})).
  { by rewrite getKeychainToken_run. }
  assert (Hrest : (fst (run (validateNpm env cfg) w) = Ret tt
                   <-> exists out, npm_whoami env = NpmOk out /\ trim out <> [])
                  /\ (fst (run (validateNpm env cfg) w) = Ret tt
                      \/ fst (run (validateNpm env cfg) w) = Exit 1)
                  /\ (NpmWhoami secret
                        ∈ trace (snd (run (validateNpm env cfg) w)))).
  { unfold run, validateNpm. rewrite Hdry.
    rewrite (bind_run _ _ _ _ _ Hget). clearbody secret.
    destruct secret as [|c s]; [done|]. cbn [is_empty].
    destruct (npm_whoami env) as [out | out err].
    - destruct (trim out) as [|d t] eqn:Et; simpl.
      + split; [|split; [by right | by apply list_elem_of_further, list_elem_of_here]].
        split; [discriminate|]. intros (o & [= <-] & Ho). congruence.
      + split; [|split; [by left | by apply list_elem_of_further, list_elem_of_here]].
        split; [|done]. intros _. exists out. by rewrite Et.
    - destruct (negb (is_empty out) || negb (is_empty err)); simpl.
      + split; [|split; [by right | by apply list_elem_of_further, list_elem_of_here]].
        split; [discriminate|]. by intros (o & [=] & _).
      + split; [|split; [by right | by apply list_elem_of_further, list_elem_of_here]].
        split; [discriminate|]. by intros (o & [=] & _). }
  tauto.
Qed.

Lemma validateNpm_outcome_witness :
  fst (run (validateNpm env_mac cfg_acme) world_empty) = Ret tt
  <-> exists out, npm_whoami env_mac = NpmOk out /\ trim out <> [].
Proof.
  refine (proj1 (validateNpm_outcome env_mac cfg_acme world_empty _ _ _)).
  - reflexivity.
  - reflexivity.
  - vm_compute. discriminate.
Defined.

(** ** The token that is acquired *)

Section TrimFacts.
Implicit Types s : jsstring.

Lemma trimStart_fixed s :
  s = [] \/ (exists c t, s = c :: t /\ is_ws c = false) -> trimStart s = s.
Proof.
  intros [-> | (c & t & -> & Hc)]; [done|]. simpl. by rewrite Hc.
Qed.

Lemma trimStart_shape s :
  trimStart s = [] \/ exists c t, trimStart s = c :: t /\ is_ws c = false.
Proof.
  destruct (trimStart s) as [|c t] eqn:E; [by left|].
  right. exists c, t. split; [done|]. by apply trimStart_head in E.
Qed.

Lemma trimStart_suffix s : exists pre, s = pre ++ trimStart s.
Proof.
  induction s as [|c s [pre IH]]; [by exists []|]. simpl.
  destruct (is_ws c).
  - exists (c :: pre). by rewrite IH at 1.
  - by exists [].
Qed.

(** A trimmed string has no white space at either end. *)
Lemma trim_clean s :
  trimStart (trim s) = trim s /\ trimStart (rev (trim s)) = rev (trim s).
Proof.
  unfold trim. rewrite rev_involutive.
  set (t := trimStart s). set (u := trimStart (rev t)).
  split; [|apply trimStart_fixed, trimStart_shape].
  apply trimStart_fixed.
  destruct (trimStart_suffix (rev t)) as [pre Hpre]. fold u in Hpre.
  assert (Ht : t = rev u ++ rev pre).
  { rewrite <- (rev_involutive t), Hpre. by rewrite rev_app_distr. }
  destruct (rev u) as [|c r] eqn:Eu; [by left|]. right. exists c, r.
  split; [done|].
  destruct (trimStart_shape s) as [Hnil | (c' & t' & Hs & Hc')];
    fold t in Hnil || fold t in Hs.
  - rewrite Hnil in Ht. discriminate.
  - rewrite Hs in Ht. simpl in Ht. by injection Ht as <- _.
Qed.

(** Trimming twice is trimming once. *)
Lemma trim_idempotent s : trim (trim s) = trim s.
Proof.
  destruct (trim_clean s) as [H1 H2]. unfold trim at 1.
  by rewrite H1, H2, rev_involutive.
Qed.

End TrimFacts.

(** X10: whenever token acquisition returns, from the flag, the dry-run
    placeholder or the hidden prompt, the token is not empty and carries no
    white space at either end; that is the value the Keychain command line
    is built from. *)
Theorem getToken_nonempty_trimmed
    (env : Env) (cfg : Config) (st : State) (token : jsstring) (st' : State) :
  getToken env cfg st = (Ret token, st') ->
  token <> [] /\ trim token = token.
Proof.
  unfold getToken.
  match goal with
  | |- mbind ?k ?m st = _ -> _ => set (inner := m); set (cont := k)
  end.
  unfold mbind, M_bind, bind.
  destruct (inner st) as [r0 s0] eqn:E0. subst inner cont. cbv beta.
  assert (Hr0 : forall t, r0 = Ret t -> trim t = t).
  { intros t ->.
    destruct (truthy (Some (tokenArg cfg))).
    - destruct (tokenArg cfg); [|discriminate].
      injection E0 as <- _. apply trim_idempotent.
    - destruct (dryRun cfg).
      + cbv [mbind M_bind bind log emit ret] in E0. by injection E0 as <- _.
      + unfold mbind, M_bind, bind in E0.
        destruct (readHidden env st) as [[x| | |] sx]; try discriminate.
        injection E0 as <- _. apply trim_idempotent. }
  destruct r0 as [t| | |]; try discriminate.
  destruct t as [|c t]; cbn [is_empty].
  - cbv [fatal mbind M_bind bind log_err emit exit]. discriminate.
  - intros [= <- <-]. split; [done|]. by apply Hr0.
Qed.

Lemma getToken_nonempty_trimmed_witness :
  lit "abc123" <> [] /\ trim (lit "abc123") = lit "abc123".
Proof.
  apply (getToken_nonempty_trimmed env_mac cfg_token
           {| world := world_empty; trace := [] |} (lit "abc123")
           {| world := world_empty; trace := [] |}).
  reflexivity.
Defined.

(** ** Keys the arguments do not mention, and keys given last *)

Section ParserKeys.
Variable key : jsstring.
Hypothesis Hkey_eq : 61 ∉ key.

Lemma parse_untouched words :
  (forall a, a ∈ words ->
     a <> lit "--" ++ key /\ startsWith a (lit "--" ++ key ++ [61]) = false) ->
  parseArgs (argv_of words) !! key = None.
Proof using Hkey_eq.
  intros Hno. unfold parseArgs, argv_of. cbn [drop]. rewrite drop_0.
  rewrite parse_loop_preserve; [apply lookup_empty|].
  intros a Ha Hk. destruct (Hno a Ha) as [Hne Hpre].
  destruct (flag_key_names key Hkey_eq a Hk) as [? | Hsw]; [done | congruence].
Qed.

Hypothesis Hkey_proto : key <> lit "__proto__".

Lemma last_eq_form pre v :
  parseArgs (argv_of (pre ++ [lit "--" ++ key ++ [61] ++ v])) !! key
  = Some (VStr v).
Proof using Hkey_eq Hkey_proto.
  unfold parseArgs, argv_of. cbn [drop]. rewrite drop_0.
  rewrite parse_loop_app_flag by apply startsWith_app.
  rewrite parse_loop_eq_form
    by (apply startsWith_app || apply includes_eq_form).
  cbn [parse_loop]. unfold assign_eq_form.
  change (drop 2 (lit "--" ++ key ++ [61] ++ v)) with (key ++ 61 :: v).
  rewrite split_app_sep by done. rewrite join_split.
  by apply lookup_set_prop_eq.
Qed.

Lemma last_space_form pre v :
  v <> [] -> startsWith v (lit "--") = false ->
  parseArgs (argv_of (pre ++ [lit "--" ++ key; v])) !! key = Some (VStr v).
Proof using Hkey_eq Hkey_proto.
  intros Hv Hd. unfold parseArgs, argv_of. cbn [drop]. rewrite drop_0.
  rewrite parse_loop_app_flag by apply startsWith_app.
  rewrite parse_loop_value; [|apply startsWith_app | | done | done].
  - cbn [parse_loop].
    change (drop 2 (lit "--" ++ key)) with key. by apply lookup_set_prop_eq.
  - rewrite includes_dashes. destruct (includes key [61]) eqn:E; [|done].
    by apply includes_char in E.
Qed.

Lemma last_bare pre :
  parseArgs (argv_of (pre ++ [lit "--" ++ key])) !! key = Some VTrue.
Proof using Hkey_eq Hkey_proto.
  unfold parseArgs, argv_of. cbn [drop]. rewrite drop_0.
  rewrite parse_loop_app_flag by apply startsWith_app.
  rewrite parse_loop_last; [|apply startsWith_app|].
  - change (drop 2 (lit "--" ++ key)) with key. by apply lookup_set_prop_eq.
  - rewrite includes_dashes. destruct (includes key [61]) eqn:E; [|done].
    by apply includes_char in E.
Qed.

End ParserKeys.

(** X11: when no argument is [--org] or starts with [--org=], the
    organization is the default [yolotechnology]; likewise without a
    dry-run argument the run is not a dry run, and without a token argument
    no token is taken from the command line.  Arguments that are not flags,
    and flags of other names, change none of this. *)
Theorem config_defaults (words : list jsstring) :
  ((forall a, a ∈ words ->
      a <> lit "--org" /\ startsWith a (lit "--org=") = false) ->
   org (config_of (parseArgs (argv_of words))) = VStr ORG_DEFAULT)
  /\ ((forall a, a ∈ words ->
         a <> lit "--dry-run" /\ startsWith a (lit "--dry-run=") = false) ->
      dryRun (config_of (parseArgs (argv_of words))) = false)
  /\ ((forall a, a ∈ words ->
         a <> lit "--token" /\ startsWith a (lit "--token=") = false) ->
      tokenArg (config_of (parseArgs (argv_of words))) = VStr []).
Proof.
  assert (Hk : forall k : jsstring, bool_decide (61 ∈ k) = false -> 61 ∉ k).
  { intros k. apply bool_decide_eq_false_1. }
  unfold config_of. cbn [org dryRun tokenArg]. split; [|split]; intros Hno.
  - rewrite (parse_untouched (lit "org")); [done | by apply Hk | done].
  - rewrite (parse_untouched (lit "dry-run")); [done | by apply Hk | done].
  - rewrite (parse_untouched (lit "token")); [done | by apply Hk | done].
Qed.

Lemma config_defaults_witness :
  org (config_of (parseArgs (argv_of [lit "--dry-run"; lit "extra"; lit "-o"])))
  = VStr ORG_DEFAULT.
Proof.
  refine (proj1 (config_defaults [lit "--dry-run"; lit "extra"; lit "-o"]) _).
  apply Forall_forall. repeat constructor; discriminate.
Defined.

(** X12: a flag given last wins.  Whatever comes before it, a final
    [--key=value] stores [value] under [key], and so does a final
    [--key value] when the value is not empty and does not start with two
    dashes (the key being free of [=] and not [__proto__]). *)
Theorem last_flag_wins (key v : jsstring) (pre : list jsstring) :
  61 ∉ key -> key <> lit "__proto__" ->
  parseArgs (argv_of (pre ++ [lit "--" ++ key ++ [61] ++ v])) !! key
  = Some (VStr v)
  /\ (v <> [] -> startsWith v (lit "--") = false ->
      parseArgs (argv_of (pre ++ [lit "--" ++ key; v])) !! key
      = Some (VStr v)).
Proof.
  intros Hk Hp. split.
  - by apply last_eq_form.
  - by apply last_space_form.
Qed.

Lemma last_flag_wins_witness :
  parseArgs (argv_of ([lit "--org"; lit "first"; lit "--org=second"]
                      ++ [lit "--org=acme"])) !! lit "org"
  = Some (VStr (lit "acme")).
Proof.
  refine (proj1 (last_flag_wins (lit "org") (lit "acme")
                   [lit "--org"; lit "first"; lit "--org=second"] _ _)).
  - apply (bool_decide_eq_false_1 _). vm_compute. reflexivity.
  - discriminate.
Defined.

(** X13: an [--org] flag without a value, given last, makes the
    organization the boolean [true], and the scope line that the registry
    config stage writes is then the one of an organization called
    "true". *)
Theorem bare_org_is_true (pre : list jsstring) :
  org (config_of (parseArgs (argv_of (pre ++ [lit "--org"])))) = VTrue
  /\ registryLine (org (config_of (parseArgs (argv_of (pre ++ [lit "--org"])))))
     = lit "@true:registry=https://npm.pkg.github.com".
Proof.
  assert (H : parseArgs (argv_of (pre ++ [lit "--org"])) !! lit "org"
              = Some VTrue).
  { apply (last_bare (lit "org")); [|discriminate].
    apply (bool_decide_eq_false_1 _). vm_compute. reflexivity. }
  unfold config_of. cbn [org]. rewrite H. split; reflexivity.
Qed.

(** ** The shell profile stage across the versions *)

Ltac run_rc_stage :=
  cbv [try_catch mbind M_bind bind existsSync readFileSync writeFileSync
       appendFileSync mkdirSync_home get_world put_world emit log log_err ret
       throw exit fatal];
  repeat first
    [ progress cbn [world trace files home_exists negb default from_option]
    | rewrite bool_decide_eq_true_2 by eauto
    | rewrite bool_decide_eq_false_2 by (by intros [? ?])
    | rewrite decide_True by done
    | match goal with H : _ = _ |- _ => rewrite H end ].

Section RcOnce.
Variable env : Env.
Variable cfg : Config.
Variable rc : Path.
Hypothesis Hdry : dryRun cfg = false.
Hypothesis Hwrite : write_ok env rc = true.
Hypothesis Hread : read_ok env rc = true.

Lemma setupRcFile_result st :
  rcTarget env (world st) = Some rc ->
  home_exists (world st) = true \/ mkdir_ok env = true ->
  exists st',
    setupRcFile env cfg st = (Ret tt, st')
    /\ files (world st') rc
       = Some (if hasKeychainLoader (default [] (files (world st) rc))
               then default [] (files (world st) rc)
               else default [] (files (world st) rc) ++ loader)
    /\ (forall q, q <> rc -> files (world st') q = files (world st) q)
    /\ exists evs, trace st' = trace st ++ evs.
Proof using Hdry Hwrite Hread.
  intros Ht Hhome.
  destruct (files (world st) rc) as [c|] eqn:Hf.
  - destruct (hasKeychainLoader c) eqn:Hc; cbn [default from_option];
      unfold id; rewrite ?Hc.
    + eexists. split; [by apply (setupRcFile_skip env cfg rc Hread st c)|].
      cbn [world trace]. split; [done|]. split; [done|]. eauto.
    + eexists.
      split; [by apply (setupRcFile_append env cfg rc Hdry Hwrite Hread st c)|].
      cbn [world trace files set_file]. rewrite decide_True by done.
      split; [done|]. split; [|eauto].
      intros q Hq. by rewrite decide_False.
  - destruct (setupRcFile_create env cfg rc Hdry Hwrite Hread st Ht Hf Hhome)
      as (st' & Hrun & Hf' & Hother & _).
    exists st'. split; [done|]. split; [done|]. split; [done|].
    unfold setupRcFile in Hrun.
    rewrite (bind_run _ _ _ _ _ (detectRcFile_run env rc st Ht)) in Hrun.
    clear Hf' Hother.
    assert (Hnone : hasKeychainLoader [] = false) by reflexivity.
    revert Hrun.
    destruct (home_exists (world st)) eqn:Hh.
    + run_rc_stage. unfold set_file. run_rc_stage.
      intros [= <-]. cbn [trace]. rewrite <- !app_assoc. eauto.
    + destruct Hhome as [|Hmk']; [done|].
      run_rc_stage. unfold set_file. run_rc_stage.
      intros [= <-]. cbn [trace]. rewrite <- !app_assoc. eauto.
Qed.

End RcOnce.

Section RcVersions.
Variable env : Env.
Variable cfg : Config.
Variable rc : Path.
Hypothesis Hdry : dryRun cfg = false.
Hypothesis Hwrite : write_ok env rc = true.
Hypothesis Hread : read_ok env rc = true.
Hypothesis Hmk : mkdir_ok env = true.

Lemma loader_v2_eq : loader_v2 = loader.
Proof using Type. reflexivity. Qed.

Lemma setupRcFile_v2_result st :
  rcTarget env (world st) = Some rc ->
  exists st',
    setupRcFile_v2 env cfg st = (Ret tt, st')
    /\ files (world st') rc
       = Some (if includes (default [] (files (world st) rc)) KEYCHAIN_SERVICE
               then default [] (files (world st) rc)
               else default [] (files (world st) rc) ++ loader).
Proof using Hdry Hwrite Hread Hmk.
  intros Ht. unfold setupRcFile_v2.
  rewrite (bind_run _ _ _ _ _ (detectRcFile_run env rc st Ht)).
  rewrite loader_v2_eq.
  change (lit "GITHUB_PACKAGES_NPM_TOKEN") with KEYCHAIN_SERVICE.
  destruct (files (world st) rc) as [c|] eqn:Hf.
  - destruct (includes c KEYCHAIN_SERVICE) eqn:Hc.
    + run_rc_stage. eexists. split; [reflexivity|].
      cbn [world files]. unfold id. by rewrite Hc.
    + run_rc_stage. eexists. split; [reflexivity|].
      cbn [world files set_file]. unfold id. by rewrite decide_True, Hc.
  - assert (Hnone : includes [] KEYCHAIN_SERVICE = false) by reflexivity.
    run_rc_stage. unfold set_file. run_rc_stage.
    eexists. split; [reflexivity|]. cbn [world files].
    by rewrite decide_True.
Qed.

End RcVersions.

(** X14: outside dry-run, with a recognised shell and file-system calls
    that succeed, the shell profile stage of the earlier versions and the
    one of the final version leave the same rc file, except in one case: a
    file that mentions the Keychain service name but not the lookup
    command.  The earlier versions take such a file as set up and leave it
    alone; the final version appends the loader to it. *)
Theorem rc_versions_compare
    (env : Env) (cfg : Config) (w : World) (rc : Path) :
  dryRun cfg = false -> rcTarget env w = Some rc ->
  write_ok env rc = true -> read_ok env rc = true -> mkdir_ok env = true ->
  let init := default [] (files w rc) in
  let odd := includes init KEYCHAIN_SERVICE
             && negb (includes init (lit "security find-generic-password")) in
  exists c2 c3,
    fst (run (setupRcFile_v2 env cfg) w) = Ret tt
    /\ fst (run (setupRcFile env cfg) w) = Ret tt
    /\ files (world (snd (run (setupRcFile_v2 env cfg) w))) rc = Some c2
    /\ files (world (snd (run (setupRcFile env cfg) w))) rc = Some c3
    /\ (odd = false -> c2 = c3)
    /\ (odd = true -> c2 = init /\ c3 = init ++ loader).
Proof.
  intros Hdry Ht Hwrite Hread Hmk. cbv zeta. unfold run.
  set (st0 := {| world := w; trace := [] |}).
  destruct (setupRcFile_v2_result env cfg rc Hdry Hwrite Hread Hmk st0 Ht)
    as (s2 & Hrun2 & Hf2).
  destruct (setupRcFile_result env cfg rc Hdry Hwrite Hread st0 Ht (or_intror Hmk))
    as (s3 & Hrun3 & Hf3 & _).
  rewrite Hrun2, Hrun3. cbn [fst snd]. cbn [world st0] in Hf2, Hf3.
  eexists _, _. split; [done|]. split; [done|].
  split; [exact Hf2|]. split; [exact Hf3|].
  unfold hasKeychainLoader.
  destruct (includes (default [] (files w rc)) KEYCHAIN_SERVICE);
    destruct (includes (default [] (files w rc))
                (lit "security find-generic-password")); cbn [andb negb];
    split; done.
Qed.

Lemma rc_versions_compare_witness :
  exists c2 c3,
    fst (run (setupRcFile_v2 env_mac cfg_acme)
           (world_with Zshrc (lit "# GITHUB_PACKAGES_NPM_TOKEN"))) = Ret tt
    /\ fst (run (setupRcFile env_mac cfg_acme)
              (world_with Zshrc (lit "# GITHUB_PACKAGES_NPM_TOKEN"))) = Ret tt
    /\ files (world (snd (run (setupRcFile_v2 env_mac cfg_acme)
                            (world_with Zshrc (lit "# GITHUB_PACKAGES_NPM_TOKEN")))))
         Zshrc = Some c2
    /\ files (world (snd (run (setupRcFile env_mac cfg_acme)
                            (world_with Zshrc (lit "# GITHUB_PACKAGES_NPM_TOKEN")))))
         Zshrc = Some c3
    /\ c2 = lit "# GITHUB_PACKAGES_NPM_TOKEN"
    /\ c3 = lit "# GITHUB_PACKAGES_NPM_TOKEN" ++ loader.
Proof.
  destruct (rc_versions_compare env_mac cfg_acme
              (world_with Zshrc (lit "# GITHUB_PACKAGES_NPM_TOKEN")) Zshrc
              eq_refl eq_refl eq_refl eq_refl eq_refl)
    as (c2 & c3 & H1 & H2 & H3 & H4 & _ & Hodd).
  exists c2, c3. repeat (split; [assumption|]).
  apply Hodd. vm_compute. reflexivity.
Defined.

(** ** A run in which everything succeeds *)

Section Success.
Variable env : Env.
Variable cfg : Config.
Hypothesis Hdry : dryRun cfg = false.

Lemma saveTokenToKeychain_ok token st :
  sh_plain (USER env) = true -> sh_plain token = true ->
  keychain_add_ok env = true ->
  saveTokenToKeychain env cfg token st
  = (Ret tt, {| world := world st;
                trace := trace st ++ [KeychainAdd token;
                                      Print MsgKeychainSaved] |}).
Proof using Hdry.
  intros Hu Ht Hok. rewrite saveTokenToKeychain_plain by done. by rewrite Hok.
Qed.

Lemma setupNpmrc_result st :
  home_writable env = true -> write_ok env Npmrc = true ->
  read_ok env Npmrc = true -> NL ∉ toString (org cfg) ->
  exists st',
    setupNpmrc env cfg st = (Ret tt, st')
    /\ (exists c, files (world st') Npmrc = Some c
                  /\ hasCorrectRegistry (org cfg) c && hasCorrectAuthToken c
                     = true)
    /\ (forall q, q <> Npmrc -> files (world st') q = files (world st) q)
    /\ exists evs, trace st' = trace st ++ evs.
Proof using Hdry.
  intros Hhome Hwrite Hread Horg.
  destruct (files (world st) Npmrc) as [c|] eqn:Hf.
  - destruct (hasCorrectRegistry (org cfg) c && hasCorrectAuthToken c) eqn:Hc.
    + eexists. split; [by apply (setupNpmrc_skip env cfg Hdry Hhome Hread st c)|].
      cbn [world trace]. split; [eauto|]. split; [done|]. eauto.
    + eexists.
      split; [by apply (setupNpmrc_merge env cfg Hdry Hhome Hwrite Hread st c)|].
      cbn [world trace files set_file]. rewrite decide_True by done.
      split; [|split; [|eauto]].
      * eexists. split; [reflexivity|]. rewrite updatedContent_unrelated.
        apply written_is_configured;
          [done | apply unrelated_no_NL | apply unrelated_not_blank].
      * intros q Hq. by rewrite decide_False.
  - eexists.
    split; [by apply (setupNpmrc_fresh env cfg Hdry Hhome Hwrite st)|].
    cbn [world trace files set_file]. rewrite decide_True by done.
    split; [|split; [|eauto]].
    + eexists. split; [reflexivity|].
      apply (written_is_configured cfg Horg []); constructor.
    + intros q Hq. by rewrite decide_False.
Qed.

Lemma checkNpmToken_run st :
  exists evs,
    checkNpmToken env st
    = (Ret tt, {| world := world st; trace := trace st ++ evs |}).
Proof using Type.
  unfold checkNpmToken. cbv [mbind M_bind bind log emit]. cbn [world trace].
  destruct (env_NPM_TOKEN env) as [[|c t]|];
    cbv [log emit]; cbn [world trace]; rewrite <- app_assoc; eauto.
Qed.

Lemma validateNpm_ok st out :
  sh_plain (USER env) = true ->
  match keychain_find env with
  | Some o => trim o
  | None => default [] (env_NPM_TOKEN env)
  end <> [] ->
  npm_whoami env = NpmOk out -> trim out <> [] ->
  exists secret,
    validateNpm env cfg st
    = (Ret tt, {| world := world st;
                  trace := trace st ++ [KeychainFind; NpmWhoami secret;
                                        Print (MsgVerified (trim out));
                                        Print MsgSourceHint] |}).
Proof using Hdry.
  intros Hu Hsecret Hnpm Hout. unfold validateNpm.
  rewrite Hdry, Hnpm.
  rewrite (bind_run _ _ _ _ _ (getKeychainToken_run env Hu st)).
  destruct (match keychain_find env with
            | Some o => trim o
            | None => default [] (env_NPM_TOKEN env)
            end) as [|c s] eqn:Es; [done|].
  exists (c :: s).
  destruct (trim out) as [|d t] eqn:Et; [done|]. cbn [is_empty].
  cbv [mbind M_bind bind emit log ret]. cbn [world trace is_empty negb].
  by rewrite <- !app_assoc.
Qed.

End Success.

Lemma rcTarget_not_npmrc env w rc : rcTarget env w = Some rc -> rc <> Npmrc.
Proof.
  unfold rcTarget.
  destruct (streq _ (lit "zsh")); [by intros [= <-]|].
  destruct (streq _ (lit "bash")); [|discriminate].
  intros [= <-]. by destruct (bool_decide _).
Qed.

(** X15: outside dry-run, when a token is obtained, the user confirms, the
    account name and the token hold no character that is special to the
    shell between double quotes, the Keychain accepts the token, the shell
    is recognised, the file-system calls succeed and [npm whoami] answers
    with a name, the main flow returns normally and leaves the machine set
    up: the token went to the Keychain as it was acquired, the rc file
    holds the loader markers, the registry config file holds both desired
    lines, the name was reported, and no file other than these two was
    changed. *)
Theorem main_success
    (env : Env) (cfg : Config) (w : World) (token out : jsstring)
    (st1 : State) (rc : Path) :
  dryRun cfg = false ->
  run (getToken env cfg) w = (Ret token, st1) ->
  said_yes (answer env) = true ->
  sh_plain (USER env) = true -> sh_plain token = true ->
  keychain_add_ok env = true ->
  rcTarget env w = Some rc ->
  write_ok env rc = true -> read_ok env rc = true ->
  home_exists w = true \/ mkdir_ok env = true ->
  home_writable env = true -> write_ok env Npmrc = true ->
  read_ok env Npmrc = true -> NL ∉ toString (org cfg) ->
  match keychain_find env with
  | Some o => trim o
  | None => default [] (env_NPM_TOKEN env)
  end <> [] ->
  npm_whoami env = NpmOk out -> trim out <> [] ->
  exists st',
    run (main env cfg) w = (Ret tt, st')
    /\ (KeychainAdd token ∈ trace st')
    /\ (exists c, files (world st') rc = Some c /\ hasKeychainLoader c = true)
    /\ (exists c, files (world st') Npmrc = Some c
                  /\ hasCorrectRegistry (org cfg) c && hasCorrectAuthToken c
                     = true)
    /\ (Print (MsgVerified (trim out)) ∈ trace st')
    /\ (forall q, q <> rc -> q <> Npmrc -> files (world st') q = files w q).
Proof.
  intros Hdry Hget Hyes Hu Hp Hadd Ht Hwrc Hrrc Hhome Hhw Hwn Hrn Horg Hsec
    Hnpm Hout.
  destruct (getToken_world env cfg w token st1 Hget) as [Hw _].
  rewrite (main_after_confirm env cfg w token st1 Hdry Hget), Hyes, Hw.
  rewrite (bind_run _ _ _ _ _
             (saveTokenToKeychain_ok env cfg Hdry token _ Hu Hp Hadd)).
  cbn [world trace].
  set (sa := {| world := w;
                trace := (trace st1 ++ [Question])
                         ++ [KeychainAdd token; Print MsgKeychainSaved] |}).
  destruct (setupRcFile_result env cfg rc Hdry Hwrc Hrrc sa Ht Hhome)
    as (sb & Hrunb & Hfb & Hob & evb & Htb).
  rewrite (bind_run _ _ _ _ _ Hrunb).
  destruct (setupNpmrc_result env cfg Hdry sb Hhw Hwn Hrn Horg)
    as (sc & Hrunc & (cn & Hfn & Hcn) & Hoc & evc & Htc).
  rewrite (bind_run _ _ _ _ _ Hrunc).
  destruct (checkNpmToken_run env sc) as (evd & Hrund).
  rewrite (bind_run _ _ _ _ _ Hrund).
  destruct (validateNpm_ok env cfg Hdry
              {| world := world sc; trace := trace sc ++ evd |} out Hu Hsec
              Hnpm Hout)
    as (secret & Hrune).
  rewrite Hrune. eexists. split; [reflexivity|]. cbn [world trace].
  assert (Hne : rc <> Npmrc) by (by eapply rcTarget_not_npmrc).
  split; [|split; [|split; [|split]]].
  - rewrite Htc, Htb. unfold sa. cbn [trace].
    rewrite !elem_of_app. left. left. left. left. right.
    apply list_elem_of_here.
  - rewrite (Hoc rc Hne), Hfb. eexists. split; [reflexivity|].
    cbn [world sa].
    destruct (hasKeychainLoader (default [] (files w rc))) eqn:E; [done|].
    apply hasKeychainLoader_appended.
  - eauto.
  - rewrite !elem_of_app. right.
    do 2 apply list_elem_of_further. apply list_elem_of_here.
  - intros q Hq1 Hq2. by rewrite (Hoc q Hq2), (Hob q Hq1).
Qed.

Lemma main_success_witness :
  exists st',
    run (main env_mac cfg_token) world_empty = (Ret tt, st')
    /\ (KeychainAdd (lit "abc123") ∈ trace st').
Proof.
  destruct (main_success env_mac cfg_token world_empty (lit "abc123")
              (lit "octocat" ++ [NL]) {| world := world_empty; trace := [] |}
              Zshrc eq_refl eq_refl eq_refl eq_refl eq_refl eq_refl eq_refl
              eq_refl eq_refl (or_introl eq_refl) eq_refl eq_refl eq_refl)
    as (st' & Hrun & Hadd & _).
  - apply (bool_decide_eq_false_1 _). vm_compute. reflexivity.
  - vm_compute. discriminate.
  - reflexivity.
  - vm_compute. discriminate.
  - exists st'. by split.
Defined.

(** ** Dry runs that complete *)

Section DryRunCompletes.
Variable env : Env.
Variable cfg : Config.
Hypothesis Hdry : dryRun cfg = true.

Lemma getToken_placeholder st :
  tokenArg cfg = VStr [] ->
  getToken env cfg st
  = (Ret (lit "DRY_RUN_TOKEN"),
     {| world := world st; trace := trace st ++ [Print MsgDryRunPlaceholder] |}).
Proof using Hdry. intros Ht. unfold getToken. rewrite Ht, Hdry. reflexivity. Qed.

Lemma setupRcFile_dry st rc :
  rcTarget env (world st) = Some rc ->
  exists evs,
    setupRcFile env cfg st
    = (match files (world st) rc with
       | Some _ => if read_ok env rc then Ret tt else Exit 1
       | None => Ret tt
       end,
       {| world := world st; trace := trace st ++ evs |}).
Proof using Hdry.
  intros Ht. unfold setupRcFile.
  rewrite (bind_run _ _ _ _ _ (detectRcFile_run env rc st Ht)).
  destruct (files (world st) rc) as [c|] eqn:Hf.
  - destruct (read_ok env rc) eqn:Hr.
    + destruct (hasKeychainLoader c) eqn:Hc; run_rc_stage;
        rewrite <- ?app_assoc; eauto.
    + run_rc_stage. rewrite <- ?app_assoc. eauto.
  - assert (Hnone : hasKeychainLoader [] = false) by reflexivity.
    run_rc_stage. rewrite <- ?app_assoc. eauto.
Qed.

Lemma dry_tail st :
  exists evs,
    (setupNpmrc env cfg;; checkNpmToken env;; validateNpm env cfg) st
    = (Ret tt, {| world := world st; trace := trace st ++ evs |}).
Proof using Hdry.
  unfold setupNpmrc, validateNpm. rewrite Hdry.
  cbv [mbind M_bind bind log emit]. cbn [world trace].
  match goal with
  | |- context [checkNpmToken env ?s] =>
      destruct (checkNpmToken_run env s) as (evs & ->)
  end.
  cbn [world trace]. rewrite <- !app_assoc. eauto.
Qed.

End DryRunCompletes.

(** X16: a dry run without a token on the command line, under a recognised
    shell, ends either normally or with exit code 1, and it ends normally
    exactly when the rc file is missing or can be read: the only thing that
    can fail in it is reading the existing rc file. *)
Theorem dry_run_completes (env : Env) (cfg : Config) (w : World) (rc : Path) :
  dryRun cfg = true -> tokenArg cfg = VStr [] ->
  rcTarget env w = Some rc ->
  (fst (run (main env cfg) w) = Ret tt
   <-> files w rc = None \/ read_ok env rc = true)
  /\ (fst (run (main env cfg) w) = Ret tt
      \/ fst (run (main env cfg) w) = Exit 1).
Proof.
  intros Hdry Htok Ht. unfold run, main.
  rewrite (bind_run _ _ _ _ _ (getToken_placeholder env cfg Hdry _ Htok)).
  rewrite Hdry. cbn [negb].
  unfold saveTokenToKeychain. rewrite Hdry.
  cbv [mbind M_bind bind ret log emit]. cbn [world trace].
  match goal with
  | |- context [setupRcFile env cfg ?s] =>
      destruct (setupRcFile_dry env cfg Hdry s rc Ht) as (evs & ->)
  end.
  cbn [world].
  destruct (files w rc) as [c|] eqn:Hf.
  - destruct (read_ok env rc) eqn:Hr.
    + match goal with
      | |- context [setupNpmrc env cfg ?s] =>
          destruct (dry_tail env cfg Hdry s) as (evs' & Htail)
      end.
      cbv [mbind M_bind bind] in Htail. rewrite Htail. cbn [fst].
      split; [|by left]. split; [by right | done].
    + cbn [fst]. split; [|by right].
      split; [discriminate | by intros [|]].
  - match goal with
    | |- context [setupNpmrc env cfg ?s] =>
        destruct (dry_tail env cfg Hdry s) as (evs' & Htail)
    end.
    cbv [mbind M_bind bind] in Htail. rewrite Htail. cbn [fst].
    split; [|by left]. split; [by left | done].
Qed.

Lemma dry_run_completes_witness :
  fst (run (main env_mac cfg_dry) world_empty) = Ret tt
  <-> files world_empty Zshrc = None \/ read_ok env_mac Zshrc = true.
Proof.
  refine (proj1 (dry_run_completes env_mac cfg_dry world_empty Zshrc _ _ _));
    reflexivity.
Defined.

(** ** The rc file of a bash user *)

(** X17: for bash the stage works on [.bashrc] when that file exists and on
    [.bash_profile] otherwise, in every outcome: it never creates
    [.bashrc], it leaves [.bash_profile] alone when [.bashrc] exists, and
    it never touches [.zshrc]. *)
Theorem bash_target
    (env : Env) (cfg : Config) (st : State) (r : Result unit) (st' : State) :
  streq (basename (default [] (env_SHELL env))) (lit "zsh") = false ->
  streq (basename (default [] (env_SHELL env))) (lit "bash") = true ->
  setupRcFile env cfg st = (r, st') ->
  files (world st') Zshrc = files (world st) Zshrc
  /\ (files (world st) Bashrc = None -> files (world st') Bashrc = None)
  /\ (files (world st) Bashrc <> None ->
      files (world st') BashProfile = files (world st) BashProfile).
Proof.
  intros Hz Hb. run_all. rewrite Hz, Hb. split_cases.
  all: intros [= <- <-]; cbn [world files set_file].
  all: split; [try reflexivity|].
  all: try (split; [intros Hn; try assumption | intros Hs; try reflexivity]).
  all: repeat match goal with
       | H : bool_decide (is_Some ?x) = true |- _ =>
           apply bool_decide_eq_true in H; destruct H as [? H]
       | H : bool_decide (is_Some ?x) = false |- _ =>
           apply bool_decide_eq_false in H;
           rewrite <- eq_None_not_Some in H
       end.
  all: try congruence.
  all: unfold set_file in *; cbn [files] in *;
       repeat (rewrite decide_True in * by done);
       repeat (rewrite decide_False in * by done); try congruence.
Qed.

Lemma bash_target_witness :
  files (world (snd (setupRcFile env_bash cfg_acme
                       {| world := world_empty; trace := [] |}))) Bashrc
  = None.
Proof.
  refine (proj1 (proj2
    (bash_target env_bash cfg_acme {| world := world_empty; trace := [] |}
       (fst (setupRcFile env_bash cfg_acme
               {| world := world_empty; trace := [] |}))
       _ _ _ _)) _); reflexivity.
Defined.
